(** * A shallow embedding of the autograd operators of [src/modules.py]

    Tensors of dtype float64 are modelled over the reals: a 1-D tensor is a
    [Vec] (list of reals), a 2-D tensor of shape (T, C) is a [Mat] (a list
    of T rows of length C).  Elementwise, broadcasting and reduction
    operations of torch are written out as list functions; an exception
    raised by torch or by an [assert] becomes [Err]. *)

From Stdlib Require Import Reals Lra Lia List ZArith Bool.
Import ListNotations.
Open Scope R_scope.

(** ** Exceptions *)

Inductive Exc : Type :=
| AssertionError   (* a failed [assert] *)
| IndexError.      (* out-of-range index or shapes that cannot broadcast *)

Inductive Result (A : Type) : Type :=
| Ok (a : A)
| Err (e : Exc).
Arguments Ok {A} a.
Arguments Err {A} e.

Definition bind {A B} (r : Result A) (k : A -> Result B) : Result B :=
  match r with Ok a => k a | Err e => Err e end.

Notation "x <- r ;; k" := (bind r (fun x => k))
  (at level 61, r at next level, right associativity).

Fixpoint mapR {A B} (f : A -> Result B) (l : list A) : Result (list B) :=
  match l with
  | [] => Ok []
  | a :: l' => b <- f a ;; bs <- mapR f l' ;; Ok (b :: bs)
  end.

(** ** Tensors *)

Abbreviation Vec := (list R).
Abbreviation Mat := (list (list R)).

Definition Mget (M : Mat) (t c : nat) : R := nth c (nth t M []) 0.

(** [M] has shape (T, C). *)
Definition is_mat (T C : nat) (M : Mat) : Prop :=
  length M = T /\ Forall (fun r => length r = C) M.

Fixpoint zipw {A B D} (f : A -> B -> D) (l1 : list A) (l2 : list B) : list D :=
  match l1, l2 with
  | a :: l1', b :: l2' => f a b :: zipw f l1' l2'
  | _, _ => []
  end.

(** [torch.sum] of a 1-D tensor. *)
Definition vsum (v : Vec) : R := fold_right Rplus 0 v.

(** [torch.mean] of a 1-D tensor. *)
Definition vmean (v : Vec) : R := vsum v / INR (length v).

(** Index sum [sum_{i < n} f i], the contraction of an einsum. *)
Fixpoint sum_n (f : nat -> R) (n : nat) : R :=
  match n with
  | O => 0
  | S n' => sum_n f n' + f n'
  end.

(** Elementwise operations on 2-D tensors of equal shape. *)
Definition mat_map (f : R -> R) (M : Mat) : Mat := map (map f) M.
Definition mat_zip (f : R -> R -> R) (A B : Mat) : Mat := zipw (zipw f) A B.

(** [M op v.unsqueeze(1)]: the column [v] of shape (T, 1) broadcast
    against [M] of shape (T, C). *)
Definition bcast_col (f : R -> R -> R) (M : Mat) (v : Vec) : Mat :=
  zipw (fun r vt => map (fun a => f a vt) r) M v.

(** [M op g.unsqueeze(0)]: the row [g] of shape (1, C) broadcast
    against [M] of shape (T, C). *)
Definition bcast_row (f : R -> R -> R) (M : Mat) (g : Vec) : Mat :=
  map (fun r => zipw f r g) M.

(** [M.mean(1)] and [M.sum(0)] of a 2-D tensor [M] of shape (T, C). *)
Definition mean1 (M : Mat) : Vec := map vmean M.
Definition sum0 (C : nat) (M : Mat) : Vec :=
  fold_right (zipw Rplus) (repeat 0 C) M.

(** [torch.rsqrt]. *)
Definition rsqrt (a : R) : R := / sqrt a.

(** ** LayerNormFn *)

Definition eps : R := 1 / 100000.

Record LNctx := {
  ln_x : Mat; ln_gamma : Vec; ln_beta : Vec;
  ln_m : Vec; ln_mu : Mat; ln_v : Vec; ln_sigma : Vec; ln_y : Mat }.

Definition LayerNormFn_forward (x : Mat) (gamma beta : Vec) : Mat * LNctx :=
  let m := mean1 x in
  let mu := bcast_col Rminus x m in
  let v := mean1 (mat_map (fun a => a ^ 2) mu) in
  let sigma := map (fun a => rsqrt (a + eps)) v in
  let y := bcast_row Rplus (bcast_row Rmult (bcast_col Rmult mu sigma) gamma) beta in
  (y, {| ln_x := x; ln_gamma := gamma; ln_beta := beta;
         ln_m := m; ln_mu := mu; ln_v := v; ln_sigma := sigma; ln_y := y |}).

(** [x.shape] of a 2-D tensor. *)
Definition shape2 (x : Mat) : nat * nat := (length x, length (hd [] x)).

(** [torch.einsum('tc,tc,t->c', A, B, s)]. *)
Definition einsum_tc_tc_t_c (A B : Mat) (s : Vec) : Vec :=
  let '(T, C) := shape2 A in
  map (fun c => sum_n (fun t => Mget A t c * Mget B t c * nth t s 0) T) (seq 0 C).

(** [torch.einsum('tc,c,t->t', A, g, s)]. *)
Definition einsum_tc_c_t_t (A : Mat) (g s : Vec) : Vec :=
  let '(T, C) := shape2 A in
  map (fun t => sum_n (fun c => Mget A t c * nth c g 0 * nth t s 0) C) (seq 0 T).

(** [torch.einsum('tc,c,tc,t->t', A, g, B, s)]. *)
Definition einsum_tc_c_tc_t_t (A : Mat) (g : Vec) (B : Mat) (s : Vec) : Vec :=
  let '(T, C) := shape2 A in
  map (fun t => sum_n (fun c => Mget A t c * nth c g 0 * Mget B t c * nth t s 0) C)
      (seq 0 T).

Definition LayerNormFn_backward (ctx : LNctx) (y_grad : Mat) : Mat * Vec * Vec :=
  let '(T, C) := shape2 (ln_x ctx) in
  let gamma := ln_gamma ctx in
  let mu := ln_mu ctx in
  let sigma := ln_sigma ctx in
  let dgamma := einsum_tc_tc_t_c y_grad mu sigma in
  let dbeta := sum0 C y_grad in
  let dx :=
    mat_zip Rminus
      (bcast_col Rminus
         (bcast_col Rmult (bcast_row Rmult y_grad gamma) sigma)
         (map (fun a => 1 / INR C * a) (einsum_tc_c_t_t y_grad gamma sigma)))
      (bcast_col Rmult (mat_map (fun a => 1 / INR C * a) mu)
         (einsum_tc_c_tc_t_t y_grad gamma mu (map (fun a => a ^ 3) sigma))) in
  (dx, dgamma, dbeta).

(** LayerNorm as the normalisation is written in the spec, row by row. *)
Definition row_mean (x : Mat) (t : nat) : R :=
  sum_n (fun c => Mget x t c) (length (nth t x [])) / INR (length (nth t x [])).
Definition centered (x : Mat) (t c : nat) : R := Mget x t c - row_mean x t.
Definition inv_std (x : Mat) (t : nat) : R :=
  / sqrt (sum_n (fun c => centered x t c ^ 2) (length (nth t x []))
           / INR (length (nth t x [])) + eps).

(** ** The LayerNorm module *)

Record LayerNormM := { lnm_gamma : Vec; lnm_beta : Vec }.

(** [nn.init.ones_(self.gamma)], [nn.init.zeros_(self.beta)]. *)
Definition LayerNorm_init (c_dim : nat) : LayerNormM :=
  {| lnm_gamma := repeat 1 c_dim; lnm_beta := repeat 0 c_dim |}.

Definition LayerNorm_forward (mdl : LayerNormM) (x : Mat) : Mat :=
  fst (LayerNormFn_forward x (lnm_gamma mdl) (lnm_beta mdl)).

(** The pre-affine subterm [mu * sigma.unsqueeze(1)] of the forward. *)
Definition ln_normalized (ctx : LNctx) : Mat :=
  bcast_col Rmult (ln_mu ctx) (ln_sigma ctx).

(** Pure normalisation, row by row, in the words of the spec. *)
Definition pure_norm (x : Mat) : Mat :=
  map (fun r =>
         let m := vmean r in
         let v := vmean (map (fun a => (a - m) ^ 2) r) in
         map (fun a => (a - m) * / sqrt (v + eps)) r) x.

(** Population variance of a row. *)
Definition pvar (r : Vec) : R := vmean (map (fun a => (a - vmean r) ^ 2) r).

(** ** Python / torch indexing *)

(** [l[i]] for an integer index: negative indices count from the end. *)
Definition py_index {A} (d : A) (l : list A) (i : Z) : Result A :=
  let n := Z.of_nat (length l) in
  if ((0 <=? i)%Z && (i <? n)%Z)%bool then Ok (nth (Z.to_nat i) l d)
  else if ((- n <=? i)%Z && (i <? 0)%Z)%bool then Ok (nth (Z.to_nat (n + i)) l d)
  else Err IndexError.

Definition arange (T : nat) : list Z := map Z.of_nat (seq 0 T).

(** Broadcasting of two 1-D index tensors. *)
Definition bcast_idx (u v : list Z) : Result (list (Z * Z)) :=
  if Nat.eqb (length u) (length v) then Ok (combine u v)
  else match u, v with
       | [i], _ => Ok (map (fun j => (i, j)) v)
       | _, [j] => Ok (map (fun i => (i, j)) u)
       | _, _ => Err IndexError
       end.

(** [s[rows, cols]] (advanced indexing of a 2-D tensor). *)
Definition gather2 (s : Mat) (rows cols : list Z) : Result Vec :=
  ps <- bcast_idx rows cols ;;
  mapR (fun p => r <- py_index [] s (fst p) ;; py_index 0 r (snd p)) ps.

(** [torch.eye(C)]. *)
Definition eye (C : nat) : Mat :=
  map (fun i => map (fun j => if Nat.eqb i j then 1 else 0) (seq 0 C)) (seq 0 C).

(** ** CrossEntropyFn *)

Record CEctx := { ce_x : Mat; ce_y : list Z; ce_s : Mat }.

Definition CrossEntropyFn_forward (x : Mat) (y : list Z) : Result (R * CEctx) :=
  let '(T, C) := shape2 x in
  let ex := mat_map exp x in
  let s := bcast_col Rdiv ex (map vsum ex) in
  p <- gather2 s (arange T) y ;;
  Ok (- vmean (map ln p), {| ce_x := x; ce_y := y; ce_s := s |}).

(** Returns [(dx, None)]; [s - eye(C)[y]] is taken on operands of the
    same shape (T, C), as [y] has length T. *)
Definition CrossEntropyFn_backward (ctx : CEctx) (y_grad : R)
  : Result (Mat * option Mat) :=
  let '(T, C) := shape2 (ce_x ctx) in
  e <- mapR (py_index [] (eye C)) (ce_y ctx) ;;
  Ok (mat_map (fun a => a / INR T)
        (mat_map (fun a => y_grad * a) (mat_zip Rminus (ce_s ctx) e)), None).

(** Cross entropy in the words of the spec. *)
Definition softmax (x : Mat) (t c : nat) : R :=
  exp (Mget x t c) / sum_n (fun c' => exp (Mget x t c')) (length (nth t x [])).

Definition ce_loss_spec (x : Mat) (y : list Z) : R :=
  sum_n (fun t => - ln (softmax x t (Z.to_nat (nth t y 0%Z)))) (length x)
  / INR (length x).

(** The position that a Python index [k] selects in a sequence of length
    [n]: a negative index counts from the end. *)
Definition py_wrap (n : nat) (k : Z) : nat :=
  Z.to_nat (if (k <? 0)%Z then (Z.of_nat n + k)%Z else k).

(** ** Tensors of any shape (for the elementwise operators) *)

Record Tensor := mkT { shape : list nat; data : list R }.

Definition numel (sh : list nat) : nat := fold_right Nat.mul 1%nat sh.
Definition wf_tensor (a : Tensor) : Prop := length (data a) = numel (shape a).

Definition tmap (f : R -> R) (a : Tensor) : Tensor := mkT (shape a) (map f (data a)).
(** An elementwise binary operation on tensors of equal shape. *)
Definition tzip (f : R -> R -> R) (a b : Tensor) : Tensor :=
  mkT (shape a) (zipw f (data a) (data b)).

(** ** GELUFn *)

Definition gelu_c : R := 44715 / 1000000.

Record GELUctx := { ge_x : Tensor; ge_a : R; ge_b : Tensor }.

Definition GELUFn_forward (x : Tensor) : Tensor * GELUctx :=
  let a := sqrt (2 / PI) in
  let b := tmap (fun xi => a * (xi + gelu_c * xi ^ 3)) x in
  (tzip (fun xi bi => 1 / 2 * xi * (1 + tanh bi)) x b,
   {| ge_x := x; ge_a := a; ge_b := b |}).

Definition GELUFn_backward (ctx : GELUctx) (y_grad : Tensor) : Tensor :=
  let x := ge_x ctx in
  let a := ge_a ctx in
  let b := ge_b ctx in
  let db := tmap (fun xi => a * (1 + 3 * gelu_c * xi ^ 2)) x in
  tzip Rmult (tmap (fun gi => gi * (1 / 2)) y_grad)
    (tzip Rplus (tmap (fun bi => 1 + tanh bi) b)
       (tzip Rmult (tzip Rdiv x (tmap (fun bi => cosh bi ^ 2) b)) db)).

(** ** AddFn *)

Definition AddFn_forward (a b : Tensor) : Result Tensor :=
  if list_eq_dec Nat.eq_dec (shape a) (shape b) then Ok (tzip Rplus a b)
  else Err AssertionError.

Definition AddFn_backward (y_grad : Tensor) : Tensor * Tensor := (y_grad, y_grad).

(** ** EmbeddingFn *)

Record EMctx := { em_x : list Z; em_emb : Mat }.

Fixpoint set_nth {A} (n : nat) (a : A) (l : list A) : list A :=
  match n, l with
  | O, _ :: l' => a :: l'
  | S n', b :: l' => b :: set_nth n' a l'
  | _, [] => []
  end.

Definition zeros_like (M : Mat) : Mat := mat_map (fun _ => 0) M.

(** [torch.index_add(acc, 0, idx, src)]: row [idx[i]] of [acc] gets row [i]
    of [src] added; an index outside [0, N) or a length mismatch raises. *)
Fixpoint index_add (acc : Mat) (idx : list Z) (src : Mat) : Result Mat :=
  match idx, src with
  | [], [] => Ok acc
  | i :: idx', r :: src' =>
      if ((0 <=? i)%Z && (i <? Z.of_nat (length acc))%Z)%bool then
        index_add (set_nth (Z.to_nat i) (zipw Rplus (nth (Z.to_nat i) acc []) r) acc)
          idx' src'
      else Err IndexError
  | _, _ => Err IndexError
  end.

Definition EmbeddingFn_forward (x : list Z) (emb : Mat) : Result (Mat * EMctx) :=
  out <- mapR (py_index [] emb) x ;;
  Ok (out, {| em_x := x; em_emb := emb |}).

Definition EmbeddingFn_backward (ctx : EMctx) (y_grad : Mat)
  : Result (option Mat * Mat) :=
  demb <- index_add (zeros_like (em_emb ctx)) (em_x ctx) y_grad ;;
  Ok (None, demb).

(** Scatter-add in the words of the spec: row [k], column [c] of the table
    gradient sums the upstream rows at the positions holding [k]. *)
Definition scatter_spec (x : list Z) (g : Mat) (k c : nat) : R :=
  sum_n (fun i => if Z.eqb (nth i x 0%Z) (Z.of_nat k) then Mget g i c else 0)
    (length x).

(** GELU's backward in the words of the spec. *)
Definition sech (z : R) : R := 1 / cosh z.

Definition gelu_grad_spec (xi gi : R) : R :=
  let a := sqrt (2 / PI) in
  let b := a * (xi + gelu_c * xi ^ 3) in
  let db := a * (1 + 3 * gelu_c * xi ^ 2) in
  gi * (1 / 2) * (1 + tanh b + xi * sech b ^ 2 * db).

(** The softmax tensor [s] computed by CrossEntropy's forward. *)
Definition ce_s_of (x : Mat) : Mat :=
  bcast_col Rdiv (mat_map exp x) (map vsum (mat_map exp x)).

(** The context saved by CrossEntropy's forward on [x] and [y]. *)
Definition ce_ctx_of (x : Mat) (y : list Z) : CEctx :=
  {| ce_x := x; ce_y := y; ce_s := ce_s_of x |}.

(** ** LinearFn *)

(** [M.T] of a 2-D tensor [M] of shape (R, K) with K = [length (hd [] M)]. *)
Definition transpose (M : Mat) : Mat :=
  map (fun j => map (fun r => nth j r 0) M) (seq 0 (length (hd [] M))).

(** [A @ B] for [A] of shape (T, K) and [B] of shape (K, O) (torch raises
    on a mismatch of the inner dimension; the lemmas assume it matches). *)
Definition matmul (A B : Mat) : Mat :=
  let K := length B in
  let O := length (hd [] B) in
  map (fun r => map (fun o => sum_n (fun k => nth k r 0 * Mget B k o) K) (seq 0 O)) A.

Record LINctx := { li_x : Mat; li_weight : Mat; li_bias : Vec }.

Definition LinearFn_forward (x weight : Mat) (bias : Vec) : Mat * LINctx :=
  let out := matmul x (transpose weight) in
  (bcast_row Rplus out bias, {| li_x := x; li_weight := weight; li_bias := bias |}).

Definition LinearFn_backward (ctx : LINctx) (y_grad : Mat) : Mat * Mat * Vec :=
  let x := li_x ctx in
  let weight := li_weight ctx in
  let dx := matmul y_grad weight in
  let dw := matmul (transpose y_grad) x in
  let db := sum0 (length (hd [] y_grad)) y_grad in
  (dx, dw, db).

(** Frobenius inner product of two (T, C) matrices. *)
Definition frob (T C : nat) (A B : Mat) : R :=
  sum_n (fun t => sum_n (fun c => Mget A t c * Mget B t c) C) T.

(** [M] with entry (t, c) replaced by [z]. *)
Definition Mset (M : Mat) (t c : nat) (z : R) : Mat :=
  set_nth t (set_nth c z (nth t M [])) M.

(** The loss of CrossEntropy's forward (0 when it raises). *)
Definition ce_loss_of (x : Mat) (y : list Z) : R :=
  match CrossEntropyFn_forward x y with Ok (L, _) => L | Err _ => 0 end.

(** Row statistics of LayerNorm's forward: [m], [v] and [sigma] of row [t]. *)
Definition row_m (x : Mat) (t : nat) : R := vmean (nth t x []).
Definition row_v (x : Mat) (t : nat) : R :=
  vmean (map (fun a => (a - row_m x t) ^ 2) (nth t x [])).
Definition row_s (x : Mat) (t : nat) : R := rsqrt (row_v x t + eps).

(** The class selected by target [t] of [y] among [C] classes. *)
Definition ce_target (C : nat) (y : list Z) (t : nat) : nat := py_wrap C (nth t y 0%Z).

(** * Lemmas on the list model *)

Section ListFacts.
Context {A B D : Type}.

Lemma length_zipw (f : A -> B -> D) l1 l2 :
  length (zipw f l1 l2) = Nat.min (length l1) (length l2).
Proof.
  revert l2; induction l1 as [|a l1 IH]; intros [|b l2]; simpl; auto.
Qed.

Lemma nth_zipw (f : A -> B -> D) l1 l2 i da db dd :
  (i < length l1)%nat -> (i < length l2)%nat ->
  nth i (zipw f l1 l2) dd = f (nth i l1 da) (nth i l2 db).
Proof.
  revert l2 i; induction l1 as [|a l1 IH]; intros [|b l2] i H1 H2;
    simpl in *; try lia.
  destruct i; auto. apply IH; lia.
Qed.

Lemma nth_map_lt (f : A -> B) l i da db :
  (i < length l)%nat -> nth i (map f l) db = f (nth i l da).
Proof.
  intros H. rewrite (nth_indep _ db (f da)) by (rewrite length_map; exact H).
  apply map_nth.
Qed.

Lemma zipw_swap (f : A -> A -> D) l1 l2 :
  (forall a b, f a b = f b a) -> zipw f l1 l2 = zipw f l2 l1.
Proof.
  intros Hf; revert l2; induction l1 as [|a l1 IH]; intros [|b l2]; simpl; auto.
  rewrite Hf, IH; reflexivity.
Qed.

End ListFacts.

Lemma is_mat_row T C M t :
  is_mat T C M -> (t < T)%nat -> length (nth t M []) = C.
Proof.
  intros [HT HC] Ht. rewrite Forall_forall in HC. apply HC, nth_In. lia.
Qed.

Lemma nth_seq_lt n k d : (k < n)%nat -> nth k (seq 0 n) d = k.
Proof. intros H. rewrite seq_nth by exact H. reflexivity. Qed.

Lemma bcast_idx_mismatch u v :
  length u <> length v -> length u <> 1%nat -> length v <> 1%nat ->
  bcast_idx u v = Err IndexError.
Proof.
  intros H1 H2 H3. unfold bcast_idx.
  destruct (Nat.eqb_spec (length u) (length v)); [contradiction|].
  destruct u as [|i [|i' u]]; simpl in H2; try lia;
  destruct v as [|j [|j' v]]; simpl in H3; try lia; reflexivity.
Qed.

Lemma length_arange T : length (arange T) = T.
Proof. unfold arange. rewrite length_map, length_seq. reflexivity. Qed.

(** * AddFn *)

(** C8: for equally shaped [a] and [b], [AddFn.forward a b] equals
    [AddFn.forward b a], and [AddFn.backward] hands the upstream gradient
    unchanged to both inputs. *)
Theorem AddFn_commutative_backward_identity (a b : Tensor) :
  shape a = shape b ->
  AddFn_forward a b = AddFn_forward b a /\
  forall y_grad, AddFn_backward y_grad = (y_grad, y_grad).
Proof.
  intros Hs. split; [|reflexivity].
  unfold AddFn_forward, tzip. rewrite Hs.
  destruct (list_eq_dec Nat.eq_dec (shape b) (shape b)) as [_|n]; [|contradiction].
  rewrite (zipw_swap Rplus (data a) (data b)) by (intros; ring). reflexivity.
Qed.

Lemma AddFn_commutative_backward_identity_witness :
  shape (mkT [2%nat] [1; 2]) = shape (mkT [2%nat] [3; 4]) /\
  AddFn_forward (mkT [2%nat] [1; 2]) (mkT [2%nat] [3; 4])
  = AddFn_forward (mkT [2%nat] [3; 4]) (mkT [2%nat] [1; 2]) /\
  forall g, AddFn_backward g = (g, g).
Proof.
  split; [reflexivity|].
  apply (AddFn_commutative_backward_identity (mkT [2%nat] [1; 2]) (mkT [2%nat] [3; 4])).
  reflexivity.
Defined.

(** * Shape errors (C5) *)

(** C5, counterexample: with logits of shape (2, 2) and a targets vector of
    length 1, CrossEntropy's forward does not fail: the single target is
    broadcast against [arange(2)]. *)
Lemma CrossEntropy_length_mismatch_broadcasts :
  length [0%Z] <> length [[0; 0]; [0; 0]] /\
  exists r, CrossEntropyFn_forward [[0; 0]; [0; 0]] [0%Z] = Ok r.
Proof.
  split; [simpl; lia|]. eexists. reflexivity.
Qed.

Lemma mapR_ok {A B} (f : A -> Result B) (h : A -> B) l :
  (forall a, In a l -> f a = Ok (h a)) -> mapR f l = Ok (map h l).
Proof.
  induction l as [|a l IH]; intros Hf; simpl; [reflexivity|].
  rewrite (Hf a (or_introl eq_refl)); simpl.
  rewrite IH by (intros; apply Hf; right; assumption). reflexivity.
Qed.

Lemma py_index_nonneg {A} (d : A) l i :
  (0 <= i < Z.of_nat (length l))%Z -> py_index d l i = Ok (nth (Z.to_nat i) l d).
Proof.
  intros H. unfold py_index.
  replace ((0 <=? i)%Z && (i <? Z.of_nat (length l))%Z)%bool with true; [reflexivity|].
  symmetry; apply andb_true_iff; split; [apply Z.leb_le | apply Z.ltb_lt]; lia.
Qed.

Lemma gather2_ok s rows cols ps :
  bcast_idx rows cols = Ok ps ->
  (forall p, In p ps ->
     (0 <= fst p < Z.of_nat (length s))%Z /\
     (0 <= snd p < Z.of_nat (length (nth (Z.to_nat (fst p)) s [])))%Z) ->
  gather2 s rows cols =
  Ok (map (fun p => Mget s (Z.to_nat (fst p)) (Z.to_nat (snd p))) ps).
Proof.
  intros Hb Hin. unfold gather2. rewrite Hb; simpl.
  apply mapR_ok. intros p Hp. destruct (Hin p Hp) as [H1 H2].
  rewrite py_index_nonneg by exact H1; simpl.
  rewrite py_index_nonneg by exact H2. reflexivity.
Qed.

(** The row-wise softmax [s] saved by CrossEntropy's forward. *)
Lemma length_bcast_col f M v : length v = length M -> length (bcast_col f M v) = length M.
Proof. intros H. unfold bcast_col. rewrite length_zipw, H. apply Nat.min_id. Qed.

Lemma nth_bcast_col f M v t :
  (t < length M)%nat -> length v = length M ->
  nth t (bcast_col f M v) [] = map (fun a => f a (nth t v 0)) (nth t M []).
Proof.
  intros Ht Hv. unfold bcast_col.
  rewrite (nth_zipw _ M v t [] 0 []) by lia. reflexivity.
Qed.

Lemma CrossEntropyFn_forward_s x y r :
  CrossEntropyFn_forward x y = Ok r -> ce_s (snd r) = ce_s_of x /\ ce_y (snd r) = y
  /\ ce_x (snd r) = x.
Proof.
  unfold CrossEntropyFn_forward, shape2. simpl.
  destruct (gather2 _ _ y); simpl; intros H; inversion H; subst; auto.
Qed.

Lemma length_ce_s x : length (ce_s_of x) = length x.
Proof.
  unfold ce_s_of, mat_map. rewrite length_bcast_col; rewrite ?length_map; reflexivity.
Qed.

Lemma row_ce_s x t :
  (t < length x)%nat ->
  nth t (ce_s_of x) [] =
  map (fun a => a / vsum (map exp (nth t x []))) (map exp (nth t x [])).
Proof.
  intros Ht. unfold ce_s_of, mat_map.
  rewrite nth_bcast_col by (rewrite ?length_map; lia).
  rewrite (nth_map_lt _ _ t [] 0) by (rewrite length_map; lia).
  rewrite (nth_map_lt _ _ t [] []) by lia. reflexivity.
Qed.

Lemma CrossEntropyFn_forward_ok_broadcast x T C y :
  is_mat T C x ->
  length y = T \/ length y = 1%nat \/ T = 1%nat ->
  Forall (fun k => 0 <= k < Z.of_nat C)%Z y ->
  exists r, CrossEntropyFn_forward x y = Ok r.
Proof.
  intros Hx Hlen Hy. rewrite Forall_forall in Hy.
  assert (Hrow : forall t, (t < T)%nat -> length (nth t (ce_s_of x) []) = C).
  { intros t Ht. pose proof Hx as [HT _].
    rewrite row_ce_s by lia. rewrite !length_map. eapply is_mat_row; eauto. }
  destruct Hx as [HT HC].
  assert (Hps : exists ps, bcast_idx (arange T) y = Ok ps /\
                  forall p, In p ps -> In (fst p) (arange T) /\ In (snd p) y).
  { unfold bcast_idx. rewrite length_arange.
    destruct (Nat.eqb_spec T (length y)).
    - eexists; split; [reflexivity|]. intros [i j] Hp; simpl.
      split; [eapply in_combine_l | eapply in_combine_r]; eauto.
    - destruct Hlen as [Hl | [Hl | Hl]]; [lia| |].
      + destruct (arange T) as [|i [|i' u]] eqn:Ha.
        * destruct y as [|j [|]]; simpl in Hl; try lia.
          eexists; split; [reflexivity|]. intros p Hp; simpl in Hp; contradiction.
        * eexists; split; [reflexivity|]. intros p Hp. apply in_map_iff in Hp.
          destruct Hp as [j [<- Hj]]. simpl. auto.
        * destruct y as [|j [|]]; simpl in Hl; try lia.
          eexists; split; [reflexivity|]. intros p Hp. apply in_map_iff in Hp.
          destruct Hp as [i0 [<- Hi]]. simpl. auto.
      + subst T; rewrite Hl; simpl.
        eexists; split; [reflexivity|]. intros p Hp. apply in_map_iff in Hp.
        destruct Hp as [j [<- Hj]]. simpl. auto. }
  destruct Hps as [ps [Hb Hin]].
  unfold CrossEntropyFn_forward, shape2; cbv zeta beta iota; rewrite HT;
  change (bcast_col Rdiv (mat_map exp x) (map vsum (mat_map exp x))) with (ce_s_of x).
  rewrite (gather2_ok (ce_s_of x) _ _ ps Hb).
  - eexists; reflexivity.
  - intros p Hp. destruct (Hin p Hp) as [Hi Hj].
    unfold arange in Hi. apply in_map_iff in Hi. destruct Hi as [t [Ht Ht']].
    apply in_seq in Ht'. rewrite <- Ht, Nat2Z.id, Hrow by lia.
    rewrite length_ce_s. specialize (Hy _ Hj). lia.
Qed.

(** C5, as amended: Add's forward raises [AssertionError] exactly when the
    operand shapes differ and otherwise returns the elementwise sum;
    CrossEntropy's forward raises [IndexError] when the targets length
    differs from T and neither of them is 1, and it raises nothing
    (broadcasting the length-1 side) when one of them is 1 and the targets
    are in range. *)
Theorem shape_errors_Add_CrossEntropy :
  (forall a b, shape a <> shape b -> AddFn_forward a b = Err AssertionError) /\
  (forall a b, shape a = shape b -> AddFn_forward a b = Ok (tzip Rplus a b)) /\
  (forall x y, length y <> length x -> length y <> 1%nat -> length x <> 1%nat ->
     CrossEntropyFn_forward x y = Err IndexError) /\
  (forall x T C y, is_mat T C x -> (length y = 1%nat \/ T = 1%nat) ->
     Forall (fun k => 0 <= k < Z.of_nat C)%Z y ->
     exists r, CrossEntropyFn_forward x y = Ok r).
Proof.
  split; [|split; [|split]].
  - intros a b H. unfold AddFn_forward.
    destruct (list_eq_dec Nat.eq_dec (shape a) (shape b)); [contradiction|reflexivity].
  - intros a b H. unfold AddFn_forward.
    destruct (list_eq_dec Nat.eq_dec (shape a) (shape b)); [reflexivity|contradiction].
  - intros x y H1 H2 H3. unfold CrossEntropyFn_forward, gather2. simpl.
    rewrite bcast_idx_mismatch; rewrite ?length_arange; auto.
  - intros x T C y Hx Hl Hy. eapply CrossEntropyFn_forward_ok_broadcast; [eassumption | tauto | eassumption].
Qed.

(** * GELUFn *)

Lemma nth_tmap f a i : (i < length (data a))%nat ->
  nth i (data (tmap f a)) 0 = f (nth i (data a) 0).
Proof. intros H. apply (nth_map_lt f). exact H. Qed.

Lemma nth_tzip f a b i :
  (i < length (data a))%nat -> (i < length (data b))%nat ->
  nth i (data (tzip f a b)) 0 = f (nth i (data a) 0) (nth i (data b) 0).
Proof. intros Ha Hb. apply nth_zipw; assumption. Qed.

Lemma length_tmap f a : length (data (tmap f a)) = length (data a).
Proof. apply length_map. Qed.

Lemma length_tzip f a b : length (data (tzip f a b)) = Nat.min (length (data a)) (length (data b)).
Proof. apply length_zipw. Qed.

Lemma div_cosh_sq_sech z w : z / cosh w ^ 2 = z * sech w ^ 2.
Proof. unfold sech, Rdiv. rewrite Rmult_1_l, pow_inv. reflexivity. Qed.

Ltac tlen :=
  repeat (rewrite length_tzip || rewrite length_tmap);
  repeat match goal with H : length (data _) = length (data _) |- _ => rewrite H end;
  repeat rewrite Nat.min_id; lia.

(** C6: GELU's backward, run on the context saved by its forward on [x],
    is elementwise [g * 0.5 * (1 + tanh b + x * sech(b)^2 * db/dx)] with
    [b = a * (x + 0.044715 x^3)], [a = sqrt(2/pi)] and
    [db/dx = a * (1 + 3 * 0.044715 * x^2)]; it reads only the saved
    [(x, a, b)] (its argument is the context). *)
Theorem GELUFn_backward_formula (x g : Tensor) :
  length (data g) = length (data x) ->
  let dx := GELUFn_backward (snd (GELUFn_forward x)) g in
  shape dx = shape g /\ length (data dx) = length (data x) /\
  forall i, (i < length (data x))%nat ->
    nth i (data dx) 0 = gelu_grad_spec (nth i (data x) 0) (nth i (data g) 0).
Proof.
  intros Hg; cbv zeta. split; [reflexivity|].
  unfold GELUFn_backward, GELUFn_forward; cbn [snd ge_x ge_a ge_b].
  split; [tlen|].
  intros i Hi.
  rewrite nth_tzip by tlen. rewrite nth_tmap by tlen.
  rewrite nth_tzip by tlen. rewrite nth_tmap by tlen.
  rewrite nth_tzip by tlen. rewrite nth_tzip by tlen.
  rewrite !nth_tmap by tlen.
  rewrite div_cosh_sq_sech. unfold gelu_grad_spec. cbv zeta. ring.
Qed.

Lemma GELUFn_backward_formula_witness :
  let x := mkT [1%nat] [1] in let g := mkT [1%nat] [2] in
  length (data g) = length (data x) /\
  nth 0 (data (GELUFn_backward (snd (GELUFn_forward x)) g)) 0
  = gelu_grad_spec 1 2.
Proof.
  cbv zeta. split; [reflexivity|].
  apply (GELUFn_backward_formula (mkT [1%nat] [1]) (mkT [1%nat] [2]) eq_refl).
  simpl; lia.
Defined.

(** * LayerNormFn forward, row by row *)

Lemma nth_map_gen {A B} (f : A -> B) l t da db :
  (t < length l)%nat -> nth t (map f l) db = f (nth t l da).
Proof. apply nth_map_lt. Qed.

Section LNRows.
Variables (x : Mat) (gamma beta : Vec).
Let ctx := snd (LayerNormFn_forward x gamma beta).

Lemma ln_lengths :
  length (ln_m ctx) = length x /\ length (ln_mu ctx) = length x /\
  length (ln_v ctx) = length x /\ length (ln_sigma ctx) = length x /\
  length (ln_y ctx) = length x /\ length (ln_normalized ctx) = length x.
Proof.
  unfold ctx, LayerNormFn_forward, ln_normalized, mean1, mat_map, bcast_row; cbn [snd ln_m ln_mu ln_v ln_sigma ln_y].
  assert (Hmu : length (bcast_col Rminus x (map vmean x)) = length x)
    by (apply length_bcast_col; apply length_map).
  repeat split; rewrite ?length_map; try assumption; try reflexivity;
    rewrite ?length_bcast_col; rewrite ?length_map; auto.
Qed.

Lemma ln_row_mu t : (t < length x)%nat ->
  nth t (ln_mu ctx) [] = map (fun a => a - row_m x t) (nth t x []).
Proof.
  intros Ht. unfold ctx, LayerNormFn_forward; cbn [snd ln_mu].
  unfold mean1. rewrite nth_bcast_col by (rewrite ?length_map; auto).
  rewrite (nth_map_gen _ _ _ []) by exact Ht. reflexivity.
Qed.

Lemma ln_row_v t : (t < length x)%nat -> nth t (ln_v ctx) 0 = row_v x t.
Proof.
  intros Ht. destruct ln_lengths as (_ & Hmu & _).
  unfold ctx, LayerNormFn_forward in *; cbn [snd ln_v ln_mu] in *.
  unfold mean1, mat_map in *. rewrite (nth_map_gen _ _ _ []) by (rewrite length_map; lia).
  rewrite (nth_map_gen _ _ _ []) by lia.
  pose proof (ln_row_mu t Ht) as H. unfold ctx, LayerNormFn_forward in H; cbn [snd ln_mu] in H.
  rewrite H, map_map. reflexivity.
Qed.

Lemma ln_row_sigma t : (t < length x)%nat -> nth t (ln_sigma ctx) 0 = row_s x t.
Proof.
  intros Ht. destruct ln_lengths as (_ & _ & Hv & _).
  pose proof (ln_row_v t Ht) as H.
  unfold ctx, LayerNormFn_forward in *; cbn [snd ln_v ln_sigma] in *.
  rewrite (nth_map_gen _ _ _ 0) by lia. rewrite H. reflexivity.
Qed.

Lemma ln_row_normalized t : (t < length x)%nat ->
  nth t (ln_normalized ctx) [] = map (fun a => (a - row_m x t) * row_s x t) (nth t x []).
Proof.
  intros Ht. destruct ln_lengths as (_ & Hmu & _ & Hs & _).
  unfold ln_normalized. rewrite nth_bcast_col by lia.
  rewrite ln_row_mu, ln_row_sigma, map_map by exact Ht. reflexivity.
Qed.

Lemma ln_row_y t : (t < length x)%nat ->
  nth t (fst (LayerNormFn_forward x gamma beta)) [] =
  zipw Rplus (zipw Rmult (map (fun a => (a - row_m x t) * row_s x t) (nth t x [])) gamma) beta.
Proof.
  intros Ht. destruct ln_lengths as (_ & _ & _ & _ & _ & Hn).
  pose proof (ln_row_normalized t Ht) as H.
  unfold ctx, ln_normalized, LayerNormFn_forward in *; cbn [fst snd ln_mu ln_sigma] in *.
  unfold bcast_row. rewrite (nth_map_gen _ _ _ []) by (rewrite length_map; lia).
  rewrite (nth_map_gen _ _ _ []) by lia. rewrite H. reflexivity.
Qed.

Lemma ln_y_length : length (fst (LayerNormFn_forward x gamma beta)) = length x.
Proof.
  destruct ln_lengths as (_ & _ & _ & _ & Hy & _). exact Hy.
Qed.

End LNRows.

(** * Sums of rows *)

Lemma vsum_map_sub_scale r m s :
  vsum (map (fun a => (a - m) * s) r) = (vsum r - INR (length r) * m) * s.
Proof.
  induction r as [|a r IH]; simpl; [ring|].
  rewrite IH. destruct (length r); simpl; ring.
Qed.

Lemma vsum_map_scale (f : R -> R) k r :
  vsum (map (fun a => f a * k) r) = vsum (map f r) * k.
Proof. induction r as [|a r IH]; simpl; [ring|]. rewrite IH. ring. Qed.

Lemma vsum_map_nonneg (f : R -> R) r :
  (forall a, 0 <= f a) -> 0 <= vsum (map f r).
Proof.
  intros Hf. induction r as [|a r IH]; simpl; [lra|]. specialize (Hf a). lra.
Qed.

Lemma zipw_mult_ones l : zipw Rmult l (repeat 1 (length l)) = l.
Proof. induction l as [|a l IH]; simpl; [reflexivity|]. rewrite IH, Rmult_1_r. reflexivity. Qed.

Lemma zipw_plus_zeros l : zipw Rplus l (repeat 0 (length l)) = l.
Proof. induction l as [|a l IH]; simpl; [reflexivity|]. rewrite IH, Rplus_0_r. reflexivity. Qed.

(** * LayerNorm module (C10) *)

(** C10: a freshly constructed [LayerNorm(C)] has gain all ones and bias all
    zeros, and its forward on any input of shape (T, C) is the pure
    normalisation [(x - mean) / sqrt(var + eps)] row by row. *)
Theorem LayerNorm_fresh_forward_is_normalization (T C : nat) (x : Mat) :
  is_mat T C x ->
  lnm_gamma (LayerNorm_init C) = repeat 1 C /\
  lnm_beta (LayerNorm_init C) = repeat 0 C /\
  LayerNorm_forward (LayerNorm_init C) x = pure_norm x.
Proof.
  intros Hx. split; [reflexivity|]. split; [reflexivity|].
  pose proof Hx as [HT _].
  unfold LayerNorm_forward. apply (nth_ext _ _ [] []).
  - rewrite ln_y_length. unfold pure_norm. rewrite length_map. reflexivity.
  - intros t Ht. rewrite ln_y_length in Ht.
    rewrite ln_row_y by exact Ht. cbn [LayerNorm_init lnm_gamma lnm_beta].
    assert (Hl : length (map (fun a => (a - row_m x t) * row_s x t) (nth t x [])) = C)
      by (rewrite length_map; eapply is_mat_row; eauto; lia).
    rewrite <- Hl at 1. rewrite zipw_mult_ones.
    rewrite <- Hl. rewrite zipw_plus_zeros.
    unfold pure_norm. rewrite (nth_map_gen _ _ _ []) by exact Ht. reflexivity.
Qed.

Lemma LayerNorm_fresh_forward_is_normalization_witness :
  is_mat 1 2 [[1; 3]] /\
  LayerNorm_forward (LayerNorm_init 2) [[1; 3]] = pure_norm [[1; 3]].
Proof.
  assert (H : is_mat 1 2 [[1; 3]]) by (split; [reflexivity | repeat constructor]).
  split; [exact H|]. apply (LayerNorm_fresh_forward_is_normalization 1 2 [[1; 3]] H).
Defined.

(** * LayerNorm normalisation statistics (C7) *)

Lemma eps_pos : 0 < eps.
Proof. unfold eps. lra. Qed.

Lemma vmean_map_len (f : R -> R) r :
  vmean (map f r) = vsum (map f r) / INR (length r).
Proof. unfold vmean. rewrite length_map. reflexivity. Qed.

Lemma row_v_nonneg x t : (0 < length (nth t x []))%nat -> 0 <= row_v x t.
Proof.
  intros H. unfold row_v. rewrite vmean_map_len. unfold Rdiv.
  apply Rmult_le_pos.
  - apply vsum_map_nonneg. intros a. apply pow2_ge_0.
  - apply Rlt_le, Rinv_pos, lt_0_INR. exact H.
Qed.

Lemma row_s_sq x t : (0 < length (nth t x []))%nat -> row_s x t ^ 2 = / (row_v x t + eps).
Proof.
  intros H. unfold row_s, rsqrt. rewrite pow_inv, pow2_sqrt; [reflexivity|].
  pose proof (row_v_nonneg x t H). pose proof eps_pos. lra.
Qed.

Lemma normalized_row_mean x t : (0 < length (nth t x []))%nat ->
  vmean (map (fun a => (a - row_m x t) * row_s x t) (nth t x [])) = 0.
Proof.
  intros H. rewrite vmean_map_len, vsum_map_sub_scale. unfold row_m, vmean.
  assert (INR (length (nth t x [])) <> 0) by (apply not_0_INR; lia).
  field. exact H0.
Qed.

Lemma normalized_row_pvar x t : (0 < length (nth t x []))%nat ->
  pvar (map (fun a => (a - row_m x t) * row_s x t) (nth t x [])) =
  row_v x t / (row_v x t + eps).
Proof.
  intros H. unfold pvar. rewrite normalized_row_mean by exact H.
  rewrite map_map.
  rewrite (map_ext _ (fun a => (a - row_m x t) ^ 2 * row_s x t ^ 2)) by (intros; ring).
  rewrite vmean_map_len, vsum_map_scale, row_s_sq by exact H.
  unfold row_v. rewrite vmean_map_len. unfold Rdiv. ring.
Qed.

(** C7, as amended: in each row of an input of shape (T, C) with C > 0,
    the pre-affine normalised values [mu * sigma] have mean exactly 0 (in
    real arithmetic) and population variance [v / (v + 1e-5)], where [v] is
    the row variance saved by the forward: the variance falls short of 1 by
    exactly [1e-5 / (v + 1e-5)].  A batch of identical rows gives identical
    output rows. *)
Theorem LayerNorm_normalized_stats (T C : nat) (x : Mat) (gamma beta : Vec) :
  is_mat T C x -> (0 < C)%nat ->
  (forall t, (t < T)%nat ->
     let n := nth t (ln_normalized (snd (LayerNormFn_forward x gamma beta))) [] in
     let v := nth t (ln_v (snd (LayerNormFn_forward x gamma beta))) 0 in
     vmean n = 0 /\ 0 <= v /\ pvar n = v / (v + eps) /\
     1 - pvar n = eps / (v + eps)) /\
  (forall r, (forall t, (t < T)%nat -> nth t x [] = r) ->
     forall t t', (t < T)%nat -> (t' < T)%nat ->
     nth t (fst (LayerNormFn_forward x gamma beta)) [] =
     nth t' (fst (LayerNormFn_forward x gamma beta)) []).
Proof.
  intros Hx HC. pose proof Hx as [HT _]. split.
  - intros t Ht. cbv zeta.
    assert (Hlen : (0 < length (nth t x []))%nat)
      by (erewrite is_mat_row by eauto; exact HC).
    rewrite ln_row_normalized, ln_row_v by lia.
    pose proof (row_v_nonneg x t Hlen). pose proof eps_pos.
    split; [apply normalized_row_mean; exact Hlen|].
    split; [assumption|].
    rewrite normalized_row_pvar by exact Hlen. split; [reflexivity|].
    field. lra.
  - intros r Hr t t' Ht Ht'.
    rewrite !ln_row_y by lia. unfold row_s, row_v, row_m. rewrite !Hr by lia.
    reflexivity.
Qed.

Lemma LayerNorm_normalized_stats_witness :
  is_mat 1 2 [[1; 3]] /\ (0 < 2)%nat /\
  vmean (nth 0 (ln_normalized (snd (LayerNormFn_forward [[1; 3]] [1; 1] [0; 0]))) []) = 0.
Proof.
  assert (H : is_mat 1 2 [[1; 3]]) by (split; [reflexivity | repeat constructor]).
  split; [exact H|]. split; [lia|].
  apply (proj1 (LayerNorm_normalized_stats 1 2 [[1; 3]] [1; 1] [0; 0] H ltac:(lia)) 0%nat).
  lia.
Defined.

(** C7, counterexample: for the constant row [[1; 1]] the pre-affine
    normalised values are all 0, so their variance is 0, not close to 1. *)
Lemma LayerNorm_constant_row_variance_zero :
  let n := nth 0 (ln_normalized (snd (LayerNormFn_forward [[1; 1]] [1; 1] [0; 0]))) [] in
  pvar n = 0 /\ ~ (Rabs (pvar n - 1) <= 1 / 2).
Proof.
  cbv zeta.
  assert (Hlen : (0 < length (nth 0 [[1; 1]] []))%nat) by (simpl; lia).
  rewrite ln_row_normalized by (simpl; lia).
  rewrite normalized_row_pvar by exact Hlen.
  assert (Hv : row_v [[1; 1]] 0 = 0).
  { unfold row_v, row_m, vmean, vsum. simpl. field. }
  rewrite Hv. unfold Rdiv. rewrite Rmult_0_l. split; [reflexivity|].
  rewrite Rminus_0_l, Rabs_Ropp, Rabs_R1. lra.
Qed.

(** * Shapes and entries of the broadcasting operations *)

Lemma is_mat_intro T C M :
  length M = T -> (forall t, (t < T)%nat -> length (nth t M []) = C) -> is_mat T C M.
Proof.
  intros HT Hr. split; [exact HT|]. apply Forall_nth. intros i d Hi.
  rewrite (nth_indep _ d []) by exact Hi. apply Hr. lia.
Qed.

Lemma is_mat_bcast_col f T C M v :
  is_mat T C M -> length v = T -> is_mat T C (bcast_col f M v).
Proof.
  intros HM Hv. pose proof (proj1 HM) as HT. apply is_mat_intro.
  - rewrite length_bcast_col; lia.
  - intros t Ht. rewrite nth_bcast_col by lia. rewrite length_map.
    eapply is_mat_row; eauto.
Qed.

Lemma is_mat_bcast_row f T C M g :
  is_mat T C M -> length g = C -> is_mat T C (bcast_row f M g).
Proof.
  intros HM Hg. pose proof (proj1 HM) as HT. apply is_mat_intro.
  - unfold bcast_row. rewrite length_map. exact HT.
  - intros t Ht. unfold bcast_row. rewrite (nth_map_gen _ _ _ []) by lia.
    rewrite length_zipw, Hg. erewrite is_mat_row by eauto. apply Nat.min_id.
Qed.

Lemma is_mat_mat_map f T C M : is_mat T C M -> is_mat T C (mat_map f M).
Proof.
  intros HM. pose proof (proj1 HM) as HT. apply is_mat_intro.
  - unfold mat_map. rewrite length_map. exact HT.
  - intros t Ht. unfold mat_map. rewrite (nth_map_gen _ _ _ []) by lia.
    rewrite length_map. eapply is_mat_row; eauto.
Qed.

Lemma is_mat_mat_zip f T C A B :
  is_mat T C A -> is_mat T C B -> is_mat T C (mat_zip f A B).
Proof.
  intros HA HB. pose proof (proj1 HA) as HTA. pose proof (proj1 HB) as HTB.
  apply is_mat_intro.
  - unfold mat_zip. rewrite length_zipw, HTA, HTB. apply Nat.min_id.
  - intros t Ht. unfold mat_zip. rewrite (nth_zipw _ _ _ t [] []) by lia.
    rewrite length_zipw. erewrite !is_mat_row by eauto. apply Nat.min_id.
Qed.

Section Entries.
Variables (T C : nat) (t c : nat).
Hypotheses (Ht : (t < T)%nat) (Hc : (c < C)%nat).

Lemma Mget_bcast_col f M v :
  is_mat T C M -> length v = T ->
  Mget (bcast_col f M v) t c = f (Mget M t c) (nth t v 0).
Proof.
  intros HM Hv. pose proof (proj1 HM). unfold Mget.
  rewrite nth_bcast_col by lia.
  rewrite (nth_map_gen _ _ _ 0); [reflexivity|]. erewrite is_mat_row by eauto. exact Hc.
Qed.

Lemma Mget_bcast_row f M g :
  is_mat T C M -> length g = C ->
  Mget (bcast_row f M g) t c = f (Mget M t c) (nth c g 0).
Proof.
  intros HM Hg. pose proof (proj1 HM). unfold Mget, bcast_row.
  rewrite (nth_map_gen _ _ _ []) by lia.
  apply nth_zipw; [erewrite is_mat_row by eauto|]; lia.
Qed.

Lemma Mget_mat_map f M :
  is_mat T C M -> Mget (mat_map f M) t c = f (Mget M t c).
Proof.
  intros HM. pose proof (proj1 HM). unfold Mget, mat_map.
  rewrite (nth_map_gen _ _ _ []) by lia.
  apply nth_map_gen. erewrite is_mat_row by eauto. exact Hc.
Qed.

Lemma Mget_mat_zip f A B :
  is_mat T C A -> is_mat T C B ->
  Mget (mat_zip f A B) t c = f (Mget A t c) (Mget B t c).
Proof.
  intros HA HB. pose proof (proj1 HA). pose proof (proj1 HB). unfold Mget, mat_zip.
  rewrite (nth_zipw _ _ _ t [] []) by lia.
  apply nth_zipw; erewrite is_mat_row by eauto; exact Hc.
Qed.

End Entries.

(** * Index sums *)

Lemma sum_n_ext f g n :
  (forall i, (i < n)%nat -> f i = g i) -> sum_n f n = sum_n g n.
Proof.
  induction n as [|n IH]; intros H; simpl; [reflexivity|].
  rewrite IH by (intros; apply H; lia). rewrite H by lia. reflexivity.
Qed.

Lemma sum_n_shift f n : sum_n f (S n) = f O + sum_n (fun i => f (S i)) n.
Proof. induction n as [|n IH]; simpl in *; [ring|]. rewrite IH. ring. Qed.

Lemma vsum_sum_n l : vsum l = sum_n (fun i => nth i l 0) (length l).
Proof.
  induction l as [|a l IH]; [reflexivity|].
  cbn [length]. rewrite sum_n_shift. simpl. rewrite IH. reflexivity.
Qed.

Lemma sum_n_scale_r f k n : sum_n (fun i => f i * k) n = sum_n f n * k.
Proof. induction n as [|n IH]; simpl; [ring|]. rewrite IH. ring. Qed.

Lemma sum_n_minus f g n : sum_n (fun i => f i - g i) n = sum_n f n - sum_n g n.
Proof. induction n as [|n IH]; simpl; [ring|]. rewrite IH. ring. Qed.

Lemma sum_n_const k n : sum_n (fun _ => k) n = INR n * k.
Proof. induction n as [|n IH]; cbn [sum_n]; [simpl; ring|]. rewrite IH, S_INR. ring. Qed.

Lemma sum_n_neg f n : sum_n (fun i => - f i) n = - sum_n f n.
Proof. induction n as [|n IH]; simpl; [ring|]. rewrite IH. ring. Qed.

(** * LayerNormFn backward (C1) *)

Lemma shape2_is_mat T C M : is_mat T C M -> (0 < T)%nat -> shape2 M = (T, C).
Proof.
  intros HM HT. pose proof (proj1 HM) as HL. unfold shape2.
  destruct M as [|r M]; simpl in HL; [lia|]. simpl.
  f_equal; [exact HL|]. apply (is_mat_row T C (r :: M) 0 HM HT).
Qed.

Lemma nth_einsum_tc_tc_t_c T C A B s c :
  shape2 A = (T, C) -> (c < C)%nat ->
  nth c (einsum_tc_tc_t_c A B s) 0 =
  sum_n (fun t => Mget A t c * Mget B t c * nth t s 0) T.
Proof.
  intros Hs Hc. unfold einsum_tc_tc_t_c. rewrite Hs.
  rewrite (nth_map_gen _ _ _ O) by (rewrite length_seq; exact Hc).
  rewrite nth_seq_lt by exact Hc. reflexivity.
Qed.


Lemma nth_einsum_tc_c_t_t T C A g s t :
  shape2 A = (T, C) -> (t < T)%nat ->
  nth t (einsum_tc_c_t_t A g s) 0 =
  sum_n (fun c => Mget A t c * nth c g 0 * nth t s 0) C.
Proof.
  intros Hs Ht. unfold einsum_tc_c_t_t. rewrite Hs.
  rewrite (nth_map_gen _ _ _ O) by (rewrite length_seq; exact Ht).
  rewrite nth_seq_lt by exact Ht. reflexivity.
Qed.

Lemma length_einsum_tc_c_t_t T C A g s :
  shape2 A = (T, C) -> length (einsum_tc_c_t_t A g s) = T.
Proof. intros Hs. unfold einsum_tc_c_t_t. rewrite Hs, length_map, length_seq. reflexivity. Qed.

Lemma nth_einsum_tc_c_tc_t_t T C A g B s t :
  shape2 A = (T, C) -> (t < T)%nat ->
  nth t (einsum_tc_c_tc_t_t A g B s) 0 =
  sum_n (fun c => Mget A t c * nth c g 0 * Mget B t c * nth t s 0) C.
Proof.
  intros Hs Ht. unfold einsum_tc_c_tc_t_t. rewrite Hs.
  rewrite (nth_map_gen _ _ _ O) by (rewrite length_seq; exact Ht).
  rewrite nth_seq_lt by exact Ht. reflexivity.
Qed.

Lemma length_einsum_tc_c_tc_t_t T C A g B s :
  shape2 A = (T, C) -> length (einsum_tc_c_tc_t_t A g B s) = T.
Proof. intros Hs. unfold einsum_tc_c_tc_t_t. rewrite Hs, length_map, length_seq. reflexivity. Qed.

Lemma sum0_spec C M :
  Forall (fun r => length r = C) M ->
  length (sum0 C M) = C /\
  forall c, (c < C)%nat -> nth c (sum0 C M) 0 = sum_n (fun t => Mget M t c) (length M).
Proof.
  induction M as [|r M IH]; intros HF.
  - split; [apply repeat_length|]. intros c Hc. simpl. unfold Mget.
    rewrite nth_repeat_lt by exact Hc. reflexivity.
  - inversion HF as [|? ? Hr HF']; subst.
    destruct (IH HF') as [Hl Hn]. cbn [sum0 fold_right].
    fold (sum0 (length r) M). split.
    + rewrite length_zipw, Hl. apply Nat.min_id.
    + intros c Hc. rewrite (nth_zipw _ _ _ c 0 0) by lia.
      rewrite Hn by exact Hc. cbn [length]. rewrite sum_n_shift.
      unfold Mget. reflexivity.
Qed.

Section LNBackward.
Variables (T C : nat) (x : Mat) (gamma beta : Vec).
Hypothesis Hx : is_mat T C x.
Let ctx := snd (LayerNormFn_forward x gamma beta).

Lemma row_mean_row_m t : (t < T)%nat -> row_mean x t = row_m x t.
Proof.
  intros Ht. unfold row_mean, row_m, vmean. rewrite vsum_sum_n. reflexivity.
Qed.

Lemma ln_mu_is_mat : is_mat T C (ln_mu ctx).
Proof.
  pose proof (proj1 Hx) as HT. unfold ctx, LayerNormFn_forward; cbn [snd ln_mu].
  apply is_mat_bcast_col; [exact Hx|]. unfold mean1. rewrite length_map. exact HT.
Qed.

Lemma ln_sigma_length : length (ln_sigma ctx) = T.
Proof.
  destruct (ln_lengths x gamma beta) as (_ & _ & _ & H & _).
  rewrite (proj1 Hx) in H. exact H.
Qed.

Lemma Mget_mu_centered t c : (t < T)%nat -> (c < C)%nat ->
  Mget (ln_mu ctx) t c = centered x t c.
Proof.
  intros Ht Hc. pose proof (proj1 Hx) as HT. unfold Mget.
  unfold ctx. rewrite ln_row_mu by lia.
  rewrite (nth_map_gen _ _ _ 0) by (erewrite is_mat_row by eauto; exact Hc).
  unfold centered. rewrite row_mean_row_m by exact Ht. reflexivity.
Qed.

Lemma sigma_inv_std t : (t < T)%nat -> nth t (ln_sigma ctx) 0 = inv_std x t.
Proof.
  intros Ht. pose proof (proj1 Hx) as HT. unfold ctx. rewrite ln_row_sigma by lia.
  unfold row_s, rsqrt, inv_std, row_v. rewrite vmean_map_len, vsum_sum_n, length_map.
  do 4 f_equal. apply sum_n_ext. intros c Hc.
  rewrite (nth_map_gen _ _ _ 0) by exact Hc.
  unfold centered, Mget. rewrite row_mean_row_m by exact Ht. reflexivity.
Qed.

End LNBackward.



(** * CrossEntropyFn *)

Lemma py_index_ok {A} (d : A) l i :
  (- Z.of_nat (length l) <= i < Z.of_nat (length l))%Z ->
  py_index d l i = Ok (nth (py_wrap (length l) i) l d).
Proof.
  intros H. unfold py_index, py_wrap.
  destruct (Z.ltb_spec i 0); destruct (Z.leb_spec 0 i);
    destruct (Z.ltb_spec i (Z.of_nat (length l)));
    destruct (Z.leb_spec (- Z.of_nat (length l)) i); cbn [andb]; try lia; reflexivity.
Qed.

Lemma py_wrap_lt n k : (- Z.of_nat n <= k < Z.of_nat n)%Z -> (py_wrap n k < n)%nat.
Proof. intros H. unfold py_wrap. destruct (Z.ltb_spec k 0); lia. Qed.

Lemma py_wrap_nonneg n k : (0 <= k)%Z -> py_wrap n k = Z.to_nat k.
Proof. intros H. unfold py_wrap. destruct (Z.ltb_spec k 0); [lia | reflexivity]. Qed.

Lemma Mget_ce_s x t k :
  (t < length x)%nat -> (k < length (nth t x []))%nat ->
  Mget (ce_s_of x) t k = softmax x t k.
Proof.
  intros Ht Hk. unfold Mget, softmax. rewrite row_ce_s by exact Ht.
  rewrite map_map, vsum_sum_n, length_map.
  rewrite (nth_map_gen _ _ _ 0) by exact Hk. f_equal.
  apply sum_n_ext. intros i Hi. apply (nth_map_gen exp). exact Hi.
Qed.

Lemma nth_arange T t : (t < T)%nat -> nth t (arange T) 0%Z = Z.of_nat t.
Proof.
  intros Ht. unfold arange. rewrite (nth_map_gen _ _ _ O) by (rewrite length_seq; exact Ht).
  rewrite nth_seq_lt by exact Ht. reflexivity.
Qed.

Lemma vmean_map_seq f T : vmean (map f (seq 0 T)) = sum_n f T / INR T.
Proof.
  unfold vmean. rewrite vsum_sum_n, length_map, length_seq. f_equal.
  apply sum_n_ext. intros i Hi.
  rewrite (nth_map_gen _ _ _ O) by (rewrite length_seq; exact Hi).
  rewrite nth_seq_lt by exact Hi. reflexivity.
Qed.

Section CE.
Variables (T C : nat) (x : Mat) (y : list Z).
Hypotheses (Hx : is_mat T C x) (Hy : length y = T)
  (Hrange : Forall (fun k => - Z.of_nat C <= k < Z.of_nat C)%Z y).

Lemma ce_target_lt t : (t < T)%nat -> (ce_target C y t < C)%nat.
Proof.
  intros Ht. apply py_wrap_lt. rewrite Forall_nth in Hrange. apply Hrange. lia.
Qed.

Lemma CrossEntropyFn_forward_eq :
  CrossEntropyFn_forward x y =
  Ok (- vmean (map (fun t => ln (softmax x t (ce_target C y t))) (seq 0 T)),
      ce_ctx_of x y).
Proof.
  pose proof (proj1 Hx) as HT.
  assert (Hb : bcast_idx (arange T) y = Ok (combine (arange T) y)).
  { unfold bcast_idx. rewrite length_arange, Hy, Nat.eqb_refl. reflexivity. }
  assert (Hrow : forall t, (t < T)%nat -> length (nth t (ce_s_of x) []) = C).
  { intros t Ht. rewrite row_ce_s by lia. rewrite !length_map. eapply is_mat_row; eauto. }
  assert (Hg : gather2 (ce_s_of x) (arange T) y =
               Ok (map (fun p => Mget (ce_s_of x) (Z.to_nat (fst p)) (py_wrap C (snd p)))
                       (combine (arange T) y))).
  { unfold gather2. rewrite Hb. cbn [bind]. apply mapR_ok. intros [i k] Hp. cbn [fst snd].
    pose proof (in_combine_l _ _ _ _ Hp) as Hi. pose proof (in_combine_r _ _ _ _ Hp) as Hk.
    unfold arange in Hi. apply in_map_iff in Hi. destruct Hi as [t [<- Ht]].
    apply in_seq in Ht. rewrite Forall_forall in Hrange. specialize (Hrange k Hk).
    rewrite py_index_nonneg by (rewrite length_ce_s; lia). cbn [bind].
    rewrite Nat2Z.id. rewrite py_index_ok by (rewrite Hrow by lia; lia).
    rewrite Hrow by lia. reflexivity. }
  unfold CrossEntropyFn_forward, shape2; cbv zeta beta iota. rewrite HT.
  change (bcast_col Rdiv (mat_map exp x) (map vsum (mat_map exp x))) with (ce_s_of x).
  rewrite Hg. cbn [bind]. do 4 f_equal.
  apply (nth_ext _ _ 0 0).
  - rewrite !length_map, length_combine, length_arange, Hy, length_seq. apply Nat.min_id.
  - intros t Ht. rewrite !length_map, length_combine, length_arange, Hy, Nat.min_id in Ht.
    rewrite (nth_map_gen _ _ _ 0) by (rewrite length_map, length_combine, length_arange, Hy; lia).
    rewrite (nth_map_gen _ _ _ (0%Z, 0%Z))
      by (rewrite length_combine, length_arange, Hy; lia).
    rewrite combine_nth by (rewrite length_arange; lia). cbn [fst snd].
    rewrite nth_arange, Nat2Z.id by exact Ht.
    rewrite (nth_map_gen _ _ _ O) by (rewrite length_seq; exact Ht).
    rewrite nth_seq_lt by exact Ht.
    rewrite Mget_ce_s by (try erewrite is_mat_row by eauto; try apply ce_target_lt; lia).
    reflexivity.
Qed.

Lemma nth_eye C0 i : (i < C0)%nat ->
  nth i (eye C0) [] = map (fun j => if Nat.eqb i j then 1 else 0) (seq 0 C0).
Proof.
  intros Hi. unfold eye. rewrite (nth_map_gen _ _ _ O) by (rewrite length_seq; exact Hi).
  rewrite nth_seq_lt by exact Hi. reflexivity.
Qed.

Lemma length_eye C0 : length (eye C0) = C0.
Proof. unfold eye. rewrite length_map, length_seq. reflexivity. Qed.

Lemma ce_s_is_mat : is_mat T C (ce_s_of x).
Proof.
  pose proof (proj1 Hx) as HT. apply is_mat_intro.
  - rewrite length_ce_s. exact HT.
  - intros t Ht. rewrite row_ce_s by lia. rewrite !length_map. eapply is_mat_row; eauto.
Qed.

Lemma CrossEntropyFn_backward_entries (g : R) :
  exists dx,
    CrossEntropyFn_backward (ce_ctx_of x y) g = Ok (dx, None) /\
    is_mat T C dx /\
    forall t c, (t < T)%nat -> (c < C)%nat ->
      Mget dx t c = g * (softmax x t c - (if Nat.eqb c (ce_target C y t) then 1 else 0)) / INR T.
Proof.
  unfold ce_ctx_of.
  pose proof (proj1 Hx) as HT.
  destruct T as [|T'] eqn:HT0.
  - destruct x; [|discriminate]. destruct y; [|discriminate].
    exists []. split; [reflexivity|]. split; [split; [reflexivity | constructor]|].
    intros t c Ht. lia.
  - rewrite <- HT0 in *.
    assert (HTp : (0 < T)%nat) by lia.
    set (E := map (fun k => nth (py_wrap C k) (eye C) []) y).
    assert (HE : mapR (py_index [] (eye C)) y = Ok E).
    { apply mapR_ok. intros k Hk. rewrite Forall_forall in Hrange.
      rewrite py_index_ok by (rewrite length_eye; apply Hrange; exact Hk).
      rewrite length_eye. reflexivity. }
    assert (HEt : forall t, (t < T)%nat -> nth t E [] = nth (ce_target C y t) (eye C) []).
    { intros t Ht. unfold E. rewrite (nth_map_gen _ _ _ 0%Z) by lia. reflexivity. }
    assert (HEm : is_mat T C E).
    { apply is_mat_intro; [unfold E; rewrite length_map; exact Hy|].
      intros t Ht. rewrite HEt, nth_eye by (try apply ce_target_lt; exact Ht).
      rewrite length_map, length_seq. reflexivity. }
    exists (mat_map (fun a => a / INR T) (mat_map (fun a => g * a) (mat_zip Rminus (ce_s_of x) E))).
    split.
    + unfold CrossEntropyFn_backward. cbn [ce_x ce_y ce_s].
      rewrite (shape2_is_mat T C x Hx HTp). cbv zeta beta iota.
      rewrite HE. reflexivity.
    + split.
      * apply is_mat_mat_map, is_mat_mat_map, is_mat_mat_zip; [apply ce_s_is_mat | exact HEm].
      * intros t c Ht Hc.
        rewrite (Mget_mat_map T C t c Ht Hc)
          by (apply is_mat_mat_map, is_mat_mat_zip; [apply ce_s_is_mat | exact HEm]).
        rewrite (Mget_mat_map T C t c Ht Hc)
          by (apply is_mat_mat_zip; [apply ce_s_is_mat | exact HEm]).
        rewrite (Mget_mat_zip T C t c Ht Hc) by (try apply ce_s_is_mat; exact HEm).
        rewrite Mget_ce_s by (try erewrite is_mat_row by eauto; lia).
        unfold Mget at 1. rewrite HEt, nth_eye by (try apply ce_target_lt; exact Ht).
        rewrite (nth_map_gen _ _ _ O) by (rewrite length_seq; exact Hc).
        rewrite nth_seq_lt, Nat.eqb_sym by exact Hc. reflexivity.
Qed.

End CE.

Lemma Forall_range_widen C (y : list Z) :
  Forall (fun k => 0 <= k < Z.of_nat C)%Z y ->
  Forall (fun k => - Z.of_nat C <= k < Z.of_nat C)%Z y.
Proof. apply Forall_impl. intros a Ha. lia. Qed.

Lemma sum_n_pos f n : (forall i, 0 < f i) -> (0 < n)%nat -> 0 < sum_n f n.
Proof.
  intros Hf Hn. induction n as [|n IH]; [lia|]. cbn [sum_n].
  destruct n as [|n]; [cbn [sum_n]; specialize (Hf O); lra|].
  pose proof (IH ltac:(lia)). specialize (Hf (S n)). lra.
Qed.

Lemma sum_n_indicator k n :
  sum_n (fun c => if Nat.eqb c k then 1 else 0) n = if Nat.ltb k n then 1 else 0.
Proof.
  induction n as [|n IH]; [reflexivity|]. cbn [sum_n]. rewrite IH.
  destruct (Nat.eqb_spec n k); destruct (Nat.ltb_spec k n); destruct (Nat.ltb_spec k (S n));
    try lia; ring.
Qed.

Lemma softmax_row_sum x t C :
  length (nth t x []) = C -> (0 < C)%nat -> sum_n (fun c => softmax x t c) C = 1.
Proof.
  intros Hl HC. unfold softmax. rewrite Hl.
  assert (Hpos : 0 < sum_n (fun c' => exp (Mget x t c')) C)
    by (apply sum_n_pos; [intros; apply exp_pos | exact HC]).
  unfold Rdiv. rewrite sum_n_scale_r. field. lra.
Qed.

(** C3: for logits [x] of shape (T, C) and targets [y] of shape (T,) in
    [0, C), CrossEntropy's forward returns the mean over the rows of
    [-ln (softmax x t (y t))], with [softmax x t c = exp x[t,c] / sum_c' exp x[t,c']]. *)
Theorem CrossEntropyFn_forward_loss (T C : nat) (x : Mat) (y : list Z) :
  is_mat T C x -> length y = T -> Forall (fun k => 0 <= k < Z.of_nat C)%Z y ->
  exists ctx, CrossEntropyFn_forward x y = Ok (ce_loss_spec x y, ctx).
Proof.
  intros Hx Hy Hr. pose proof (proj1 Hx) as HT.
  rewrite (CrossEntropyFn_forward_eq T C x y Hx Hy (Forall_range_widen C y Hr)).
  eexists. do 2 f_equal. unfold ce_loss_spec. rewrite vmean_map_seq, HT.
  rewrite (sum_n_ext (fun t => - ln (softmax x t (Z.to_nat (nth t y 0%Z))))
                     (fun t => - ln (softmax x t (ce_target C y t)))).
  - rewrite sum_n_neg. unfold Rdiv. ring.
  - intros t Ht. unfold ce_target. rewrite py_wrap_nonneg; [reflexivity|].
    rewrite Forall_nth in Hr. apply (Hr t 0%Z). lia.
Qed.

Lemma CrossEntropyFn_forward_loss_witness :
  is_mat 1 2 [[0; 0]] /\ length [1%Z] = 1%nat /\
  Forall (fun k => 0 <= k < Z.of_nat 2)%Z [1%Z] /\
  exists ctx, CrossEntropyFn_forward [[0; 0]] [1%Z] = Ok (ce_loss_spec [[0; 0]] [1%Z], ctx).
Proof.
  assert (Hx : is_mat 1 2 [[0; 0]]) by (split; [reflexivity | repeat constructor]).
  assert (Hr : Forall (fun k => 0 <= k < Z.of_nat 2)%Z [1%Z]) by (repeat constructor; lia).
  split; [exact Hx|]. split; [reflexivity|]. split; [exact Hr|].
  exact (CrossEntropyFn_forward_loss 1 2 [[0; 0]] [1%Z] Hx eq_refl Hr).
Defined.

Lemma py_index_out {A} (d : A) l i :
  ~ (- Z.of_nat (length l) <= i < Z.of_nat (length l))%Z -> py_index d l i = Err IndexError.
Proof.
  intros H. unfold py_index.
  destruct (Z.leb_spec 0 i); destruct (Z.ltb_spec i (Z.of_nat (length l)));
    destruct (Z.leb_spec (- Z.of_nat (length l)) i); destruct (Z.ltb_spec i 0);
    cbn [andb]; try lia; reflexivity.
Qed.

Lemma py_index_not_assert {A} (d : A) l i : py_index d l i <> Err AssertionError.
Proof.
  unfold py_index. destruct (_ && _)%bool; [discriminate|].
  destruct (_ && _)%bool; discriminate.
Qed.

Lemma mapR_err {A B} (f : A -> Result B) l :
  (forall a, In a l -> f a <> Err AssertionError) ->
  (exists a, In a l /\ f a = Err IndexError) -> mapR f l = Err IndexError.
Proof.
  induction l as [|a l IH]; intros Hna [b [Hb Hfb]]; [destruct Hb|].
  simpl. destruct (f a) as [v|e] eqn:Hfa.
  - destruct Hb as [<-|Hb]; [congruence|].
    cbn [bind]. rewrite IH; [reflexivity| |].
    + intros a' Ha'. apply Hna. right. exact Ha'.
    + exists b. split; assumption.
  - cbn [bind]. destruct e; [|reflexivity].
    exfalso. apply (Hna a (or_introl eq_refl)). exact Hfa.
Qed.

Lemma ce_forward_out_of_range_err (T C : nat) (x : Mat) (y : list Z) :
  is_mat T C x -> length y = T ->
  (exists k, In k y /\ (k < - Z.of_nat C \/ Z.of_nat C <= k)%Z) ->
  CrossEntropyFn_forward x y = Err IndexError.
Proof.
  intros Hx Hy Hbad.
  pose proof (proj1 Hx) as HT.
  assert (Hrow : forall t, (t < T)%nat -> length (nth t (ce_s_of x) []) = C).
  { intros t Ht. rewrite row_ce_s by lia. rewrite !length_map. eapply is_mat_row; eauto. }
  assert (Hb : bcast_idx (arange T) y = Ok (combine (arange T) y)).
  { unfold bcast_idx. rewrite length_arange, Hy, Nat.eqb_refl. reflexivity. }
  assert (Hg : gather2 (ce_s_of x) (arange T) y = Err IndexError).
  { unfold gather2. rewrite Hb. cbn [bind]. apply mapR_err.
    - intros p _. destruct (py_index [] (ce_s_of x) (fst p)) as [r|e] eqn:E; cbn [bind].
      + apply py_index_not_assert.
      + intros H. inversion H; subst. apply (py_index_not_assert [] (ce_s_of x) (fst p)).
        exact E.
    - destruct Hbad as [k [Hk Hout]].
      destruct (In_nth y k 0%Z Hk) as [t [Ht Hkt]].
      exists (Z.of_nat t, k). split.
      + rewrite <- Hkt. rewrite <- (nth_arange T t) by lia. rewrite <- combine_nth
          by (rewrite length_arange; lia).
        apply nth_In. rewrite length_combine, length_arange. lia.
      + cbn [fst snd]. rewrite py_index_nonneg by (rewrite length_ce_s; lia).
        cbn [bind]. apply py_index_out. rewrite Nat2Z.id, Hrow by lia. lia. }
  unfold CrossEntropyFn_forward, shape2; cbv zeta beta iota. rewrite HT.
  change (bcast_col Rdiv (mat_map exp x) (map vsum (mat_map exp x))) with (ce_s_of x).
  rewrite Hg. reflexivity.
Qed.

(** C2, as amended: for logits [x] of shape (T, C) and targets [y] of
    shape (T,): when each target is in [-C, C), for any scalar upstream
    gradient [g] the forward succeeds and the backward returns [None] for
    the targets and, for the logits, the (T, C) matrix with entry
    [g * (softmax[t,c] - indicator[c == target t]) / T], where a negative
    target [k] denotes class [C + k] (Python indexing of [torch.eye(C)]);
    when some target lies outside [-C, C), the forward raises
    [IndexError]. *)
Theorem CrossEntropyFn_backward_formula (T C : nat) (x : Mat) (y : list Z) (g : R) :
  is_mat T C x -> length y = T ->
  (Forall (fun k => - Z.of_nat C <= k < Z.of_nat C)%Z y ->
   exists loss ctx dx,
     CrossEntropyFn_forward x y = Ok (loss, ctx) /\
     CrossEntropyFn_backward ctx g = Ok (dx, None) /\
     is_mat T C dx /\
     forall t c, (t < T)%nat -> (c < C)%nat ->
       Mget dx t c =
       g * (softmax x t c - (if Nat.eqb c (py_wrap C (nth t y 0%Z)) then 1 else 0)) / INR T) /\
  ((exists k, In k y /\ (k < - Z.of_nat C \/ Z.of_nat C <= k)%Z) ->
   CrossEntropyFn_forward x y = Err IndexError).
Proof.
  intros Hx Hy. split.
  - intros Hr.
    destruct (CrossEntropyFn_backward_entries T C x y Hx Hy Hr g) as (dx & Hb & Hd & He).
    do 3 eexists. split; [apply (CrossEntropyFn_forward_eq T C x y Hx Hy Hr)|].
    split; [exact Hb|]. split; [exact Hd|]. exact He.
  - intros Hbad. exact (ce_forward_out_of_range_err T C x y Hx Hy Hbad).
Qed.

Lemma CrossEntropyFn_backward_formula_witness :
  (exists loss ctx dx,
     CrossEntropyFn_forward [[0; 0]] [(-1)%Z] = Ok (loss, ctx) /\
     CrossEntropyFn_backward ctx 1 = Ok (dx, None)) /\
  CrossEntropyFn_forward [[0; 0]] [2%Z] = Err IndexError.
Proof.
  assert (Hx : is_mat 1 2 [[0; 0]]) by (split; [reflexivity | repeat constructor]).
  assert (Hr : Forall (fun k => - Z.of_nat 2 <= k < Z.of_nat 2)%Z [(-1)%Z])
    by (repeat constructor; lia).
  split.
  - destruct (proj1 (CrossEntropyFn_backward_formula 1 2 [[0; 0]] [(-1)%Z] 1 Hx eq_refl) Hr)
      as (loss & ctx & dx & H1 & H2 & _).
    exists loss, ctx, dx. split; assumption.
  - apply (proj2 (CrossEntropyFn_backward_formula 1 2 [[0; 0]] [2%Z] 1 Hx eq_refl)).
    exists 2%Z. split; [simpl; auto | lia].
Defined.

Lemma softmax_00 c : (c < 2)%nat -> softmax [[0; 0]] 0 c = 1 / 2.
Proof.
  intros Hc. unfold softmax, Mget. cbn [nth length sum_n].
  destruct c as [|[|c]]; try lia; cbn [nth]; rewrite exp_0; field.
Qed.

(** C2, counterexample: for logits [[0; 0]] and the target [-1] (an
    integer target vector of shape (1,)), forward and backward succeed and
    the backward's entry at class 1 is [-1/2], while the claimed
    [grad * (softmax[0,1] - indicator[1 == -1]) / 1] is [1/2]. *)
Lemma CrossEntropy_negative_target_gradient :
  exists loss ctx dx,
    CrossEntropyFn_forward [[0; 0]] [(-1)%Z] = Ok (loss, ctx) /\
    CrossEntropyFn_backward ctx 1 = Ok (dx, None) /\
    Mget dx 0 1 = - (1 / 2) /\
    Mget dx 0 1 <> 1 * (softmax [[0; 0]] 0 1 - (if Z.eqb 1 (-1) then 1 else 0)) / INR 1.
Proof.
  assert (Hx : is_mat 1 2 [[0; 0]]) by (split; [reflexivity | repeat constructor]).
  assert (Hr : Forall (fun k => - Z.of_nat 2 <= k < Z.of_nat 2)%Z [(-1)%Z])
    by (repeat constructor; lia).
  destruct (CrossEntropyFn_backward_entries 1 2 [[0; 0]] [(-1)%Z] Hx eq_refl Hr 1)
    as (dx & Hb & _ & He).
  exists (- vmean (map (fun t => ln (softmax [[0; 0]] t (ce_target 2 [(-1)%Z] t))) (seq 0 1))),
    (ce_ctx_of [[0; 0]] [(-1)%Z]), dx.
  split; [apply (CrossEntropyFn_forward_eq 1 2 [[0; 0]] [(-1)%Z] Hx eq_refl Hr)|].
  split; [exact Hb|].
  rewrite (He 0%nat 1%nat) by lia. rewrite softmax_00 by lia.
  unfold ce_target, py_wrap. cbn [nth Z.ltb Z.compare]. simpl.
  split; [field|]. cbn [Z.eqb]. simpl. lra.
Qed.

(** C9: for logits of shape (T, C), targets of shape (T,) in [0, C) and
    any scalar upstream gradient, every row of the logits gradient
    returned by CrossEntropy's backward sums to zero. *)
Theorem CrossEntropyFn_backward_row_sum_zero (T C : nat) (x : Mat) (y : list Z) (g : R) :
  is_mat T C x -> length y = T -> Forall (fun k => 0 <= k < Z.of_nat C)%Z y ->
  exists loss ctx dx,
    CrossEntropyFn_forward x y = Ok (loss, ctx) /\
    CrossEntropyFn_backward ctx g = Ok (dx, None) /\
    forall t, (t < T)%nat -> vsum (nth t dx []) = 0.
Proof.
  intros Hx Hy Hr0. pose proof (Forall_range_widen C y Hr0) as Hr.
  destruct (CrossEntropyFn_backward_entries T C x y Hx Hy Hr g) as (dx & Hb & Hd & He).
  do 3 eexists. split; [apply (CrossEntropyFn_forward_eq T C x y Hx Hy Hr)|].
  split; [exact Hb|].
  intros t Ht.
  assert (Hk : (ce_target C y t < C)%nat) by (apply (ce_target_lt T C y Hy Hr); exact Ht).
  assert (HC : (0 < C)%nat) by lia.
  rewrite vsum_sum_n. erewrite (is_mat_row T C dx) by eauto.
  rewrite (sum_n_ext _ (fun c => (softmax x t c - (if Nat.eqb c (ce_target C y t) then 1 else 0))
                                  * (g / INR T)))
    by (intros c Hc; unfold Mget in He; rewrite He by assumption; unfold Rdiv; ring).
  rewrite sum_n_scale_r, sum_n_minus.
  rewrite softmax_row_sum; [| eapply is_mat_row; eauto | exact HC].
  rewrite sum_n_indicator.
  destruct (Nat.ltb_spec (ce_target C y t) C); [ring | lia].
Qed.

Lemma CrossEntropyFn_backward_row_sum_zero_witness :
  is_mat 1 2 [[0; 0]] /\ length [1%Z] = 1%nat /\
  Forall (fun k => 0 <= k < Z.of_nat 2)%Z [1%Z] /\
  exists loss ctx dx,
    CrossEntropyFn_forward [[0; 0]] [1%Z] = Ok (loss, ctx) /\
    CrossEntropyFn_backward ctx 1 = Ok (dx, None) /\
    vsum (nth 0 dx []) = 0.
Proof.
  assert (Hx : is_mat 1 2 [[0; 0]]) by (split; [reflexivity | repeat constructor]).
  assert (Hr : Forall (fun k => 0 <= k < Z.of_nat 2)%Z [1%Z]) by (repeat constructor; lia).
  split; [exact Hx|]. split; [reflexivity|]. split; [exact Hr|].
  destruct (CrossEntropyFn_backward_row_sum_zero 1 2 [[0; 0]] [1%Z] 1 Hx eq_refl Hr)
    as (loss & ctx & dx & H1 & H2 & H3).
  exists loss, ctx, dx. split; [exact H1|]. split; [exact H2|]. apply H3. lia.
Defined.

(** * EmbeddingFn (C4) *)

Lemma length_set_nth {A} n (a : A) l : length (set_nth n a l) = length l.
Proof.
  revert n; induction l as [|b l IH]; intros [|n]; simpl; auto.
Qed.

Lemma nth_set_nth {A} n (a : A) l k d : (n < length l)%nat ->
  nth k (set_nth n a l) d = if Nat.eqb k n then a else nth k l d.
Proof.
  revert n k; induction l as [|b l IH]; intros n k Hn; simpl in Hn; [lia|].
  destruct n as [|n], k as [|k]; cbn [set_nth nth Nat.eqb]; auto.
  apply IH. lia.
Qed.

Lemma Mget_zeros_like N D M k c : is_mat N D M -> Mget (zeros_like M) k c = 0.
Proof.
  intros HM. unfold Mget, zeros_like, mat_map.
  destruct (Nat.lt_ge_cases k (length M)) as [Hk | Hk].
  - rewrite (nth_map_gen _ _ _ []) by exact Hk.
    destruct (Nat.lt_ge_cases c (length (nth k M []))) as [Hc | Hc].
    + rewrite (nth_map_gen _ _ _ 0) by exact Hc. reflexivity.
    + rewrite nth_overflow by (rewrite length_map; exact Hc). reflexivity.
  - rewrite (nth_overflow (map _ M)) by (rewrite length_map; exact Hk). destruct c; reflexivity.
Qed.

Lemma is_mat_zeros_like N D M : is_mat N D M -> is_mat N D (zeros_like M).
Proof. apply is_mat_mat_map. Qed.

Lemma index_add_spec N D (idx : list Z) :
  forall acc src,
  is_mat N D acc -> is_mat (length idx) D src ->
  Forall (fun k => 0 <= k < Z.of_nat N)%Z idx ->
  exists res, index_add acc idx src = Ok res /\ is_mat N D res /\
    forall k c, (k < N)%nat -> (c < D)%nat ->
      Mget res k c = Mget acc k c + scatter_spec idx src k c.
Proof.
  induction idx as [|i idx IH]; intros acc src Hacc Hsrc Hr.
  - destruct src as [|r src]; [|destruct Hsrc as [Hl _]; discriminate].
    exists acc. split; [reflexivity|]. split; [exact Hacc|].
    intros k c _ _. unfold scatter_spec. simpl. ring.
  - destruct src as [|r src]; [destruct Hsrc as [Hl _]; discriminate|].
    apply Forall_cons_iff in Hr as [Hi Hr'].
    destruct Hsrc as [Hl HF]. apply Forall_cons_iff in HF as [Hrl HF'].
    pose proof (proj1 Hacc) as HN.
    set (i' := Z.to_nat i).
    assert (Hi' : (i' < N)%nat) by (unfold i'; lia).
    set (acc' := set_nth i' (zipw Rplus (nth i' acc []) r) acc).
    assert (Hacc' : is_mat N D acc').
    { apply is_mat_intro; [unfold acc'; rewrite length_set_nth; exact HN|].
      intros t Ht. unfold acc'. rewrite nth_set_nth by lia.
      destruct (Nat.eqb_spec t i').
      - rewrite length_zipw, Hrl. erewrite is_mat_row by eauto. apply Nat.min_id.
      - eapply is_mat_row; eauto. }
    assert (Hsrc' : is_mat (length idx) D src) by (split; [simpl in Hl; lia | exact HF']).
    destruct (IH acc' src Hacc' Hsrc' Hr')
      as (res & Hres & Hresm & Hrese).
    exists res. split.
    + cbn [index_add].
      replace ((0 <=? i)%Z && (i <? Z.of_nat (length acc))%Z)%bool with true
        by (symmetry; apply andb_true_iff; split; [apply Z.leb_le | apply Z.ltb_lt]; lia).
      exact Hres.
    + split; [exact Hresm|]. intros k c Hk Hc.
      rewrite Hrese by assumption.
      unfold scatter_spec. cbn [length]. rewrite sum_n_shift.
      assert (Hacc'e : Mget acc' k c = Mget acc k c + (if Nat.eqb k i' then nth c r 0 else 0)).
      { unfold Mget, acc'. rewrite nth_set_nth by lia.
        destruct (Nat.eqb_spec k i'); [|ring]. subst k.
        rewrite (nth_zipw _ _ _ c 0 0); [reflexivity| |lia].
        erewrite is_mat_row by eauto. exact Hc. }
      rewrite Hacc'e. cbn [nth].
      assert (Heq : Z.eqb i (Z.of_nat k) = Nat.eqb k i').
      { unfold i'. destruct (Z.eqb_spec i (Z.of_nat k)); destruct (Nat.eqb_spec k (Z.to_nat i));
          auto; lia. }
      rewrite Heq. unfold Mget. cbn [nth]. destruct (Nat.eqb k i'); ring.
Qed.

(** C4: for indices [x] of shape (T,) in [0, N), a table [emb] of shape
    (N, D) and an upstream gradient [g] of shape (T, D), Embedding's
    backward (on the context saved by its forward) returns [None] for the
    indices and the (N, D) scatter-add of the rows of [g] into zeros:
    entry [k, c] is the sum of [g[i, c]] over every position [i] with
    [x[i] = k], so repeated indices accumulate. *)
Theorem EmbeddingFn_backward_scatter_add (T N D : nat) (x : list Z) (emb g : Mat) :
  is_mat N D emb -> length x = T -> Forall (fun k => 0 <= k < Z.of_nat N)%Z x ->
  is_mat T D g ->
  exists out ctx demb,
    EmbeddingFn_forward x emb = Ok (out, ctx) /\
    EmbeddingFn_backward ctx g = Ok (None, demb) /\
    is_mat N D demb /\
    forall k c, (k < N)%nat -> (c < D)%nat -> Mget demb k c = scatter_spec x g k c.
Proof.
  intros He Hx Hr Hg. pose proof (proj1 He) as HN.
  assert (Hg' : is_mat (length x) D g) by (rewrite Hx; exact Hg).
  destruct (index_add_spec N D x (zeros_like emb) g (is_mat_zeros_like N D emb He) Hg' Hr)
    as (demb & Hd & Hdm & Hde).
  exists (map (fun k => nth (Z.to_nat k) emb []) x), {| em_x := x; em_emb := emb |}, demb.
  split.
  - unfold EmbeddingFn_forward.
    rewrite (mapR_ok _ (fun k => nth (Z.to_nat k) emb [])); [reflexivity|].
    intros k Hk. rewrite Forall_forall in Hr. apply py_index_nonneg.
    specialize (Hr k Hk). lia.
  - split; [unfold EmbeddingFn_backward; cbn [em_x em_emb]; rewrite Hd; reflexivity|].
    split; [exact Hdm|]. intros k c Hk Hc.
    rewrite Hde by assumption. rewrite (Mget_zeros_like N D emb k c He). ring.
Qed.

Lemma EmbeddingFn_backward_scatter_add_witness :
  is_mat 2 1 [[5]; [7]] /\ length [1%Z; 1%Z] = 2%nat /\
  Forall (fun k => 0 <= k < Z.of_nat 2)%Z [1%Z; 1%Z] /\ is_mat 2 1 [[2]; [3]] /\
  exists out ctx demb,
    EmbeddingFn_forward [1%Z; 1%Z] [[5]; [7]] = Ok (out, ctx) /\
    EmbeddingFn_backward ctx [[2]; [3]] = Ok (None, demb) /\
    Mget demb 1 0 = scatter_spec [1%Z; 1%Z] [[2]; [3]] 1 0.
Proof.
  assert (He : is_mat 2 1 [[5]; [7]]) by (split; [reflexivity | repeat constructor]).
  assert (Hg : is_mat 2 1 [[2]; [3]]) by (split; [reflexivity | repeat constructor]).
  assert (Hr : Forall (fun k => 0 <= k < Z.of_nat 2)%Z [1%Z; 1%Z]) by (repeat constructor; lia).
  split; [exact He|]. split; [reflexivity|]. split; [exact Hr|]. split; [exact Hg|].
  destruct (EmbeddingFn_backward_scatter_add 2 2 1 [1%Z; 1%Z] [[5]; [7]] [[2]; [3]]
              He eq_refl Hr Hg) as (out & ctx & demb & H1 & H2 & _ & H4).
  exists out, ctx, demb. split; [exact H1|]. split; [exact H2|]. apply H4; lia.
Defined.

(** * LinearFn *)

Lemma sum_n_plus f g n : sum_n (fun i => f i + g i) n = sum_n f n + sum_n g n.
Proof. induction n as [|n IH]; simpl; [ring|]. rewrite IH. ring. Qed.

Lemma sum_n_scale_l k f n : sum_n (fun i => k * f i) n = k * sum_n f n.
Proof. induction n as [|n IH]; simpl; [ring|]. rewrite IH. ring. Qed.

Lemma sum_n_swap (f : nat -> nat -> R) n m :
  sum_n (fun i => sum_n (fun j => f i j) m) n = sum_n (fun j => sum_n (fun i => f i j) n) m.
Proof.
  induction n as [|n IH]; simpl.
  - rewrite (sum_n_ext (fun _ => 0) (fun _ => 0 * 0)) by (intros; ring).
    rewrite sum_n_scale_l. ring.
  - rewrite IH, <- sum_n_plus. reflexivity.
Qed.

Lemma is_mat_transpose R0 K M :
  is_mat R0 K M -> (0 < R0)%nat ->
  is_mat K R0 (transpose M) /\
  forall j r, (j < K)%nat -> (r < R0)%nat -> Mget (transpose M) j r = Mget M r j.
Proof.
  intros HM HR. pose proof (proj1 HM) as HL.
  assert (Hhd : length (hd [] M) = K) by (pose proof (shape2_is_mat R0 K M HM HR) as H;
                                           unfold shape2 in H; congruence).
  split.
  - apply is_mat_intro.
    + unfold transpose. rewrite length_map, length_seq. exact Hhd.
    + intros j Hj. unfold transpose.
      rewrite (nth_map_gen _ _ _ O) by (rewrite length_seq; lia).
      rewrite length_map. exact HL.
  - intros j r Hj Hr. unfold Mget, transpose.
    rewrite (nth_map_gen _ _ _ O) by (rewrite length_seq; lia).
    rewrite nth_seq_lt by lia.
    rewrite (nth_map_gen _ _ _ []) by lia. reflexivity.
Qed.

Lemma is_mat_matmul T K O A B :
  is_mat T K A -> is_mat K O B -> (0 < K)%nat ->
  is_mat T O (matmul A B) /\
  forall t o, (t < T)%nat -> (o < O)%nat ->
    Mget (matmul A B) t o = sum_n (fun k => Mget A t k * Mget B k o) K.
Proof.
  intros HA HB HK. pose proof (proj1 HA) as HTA. pose proof (proj1 HB) as HKB.
  assert (Hhd : length (hd [] B) = O) by (pose proof (shape2_is_mat K O B HB HK) as H;
                                           unfold shape2 in H; congruence).
  split.
  - apply is_mat_intro.
    + unfold matmul. rewrite length_map. exact HTA.
    + intros t Ht. unfold matmul. rewrite (nth_map_gen _ _ _ []) by lia.
      rewrite length_map, length_seq. exact Hhd.
  - intros t o Ht Ho. unfold Mget at 1. unfold matmul.
    rewrite (nth_map_gen _ _ _ []) by lia.
    rewrite (nth_map_gen _ _ _ O) by (rewrite length_seq; lia).
    rewrite nth_seq_lt, HKB by lia. reflexivity.
Qed.

Lemma linear_out_entries T I O x weight :
  (0 < I)%nat -> (0 < O)%nat -> is_mat T I x -> is_mat O I weight ->
  is_mat T O (matmul x (transpose weight)) /\
  forall t o, (t < T)%nat -> (o < O)%nat ->
    Mget (matmul x (transpose weight)) t o
    = sum_n (fun i => Mget x t i * Mget weight o i) I.
Proof.
  intros HI HO Hx Hw.
  destruct (is_mat_transpose O I weight Hw HO) as [HwT HwTe].
  destruct (is_mat_matmul T I O x (transpose weight) Hx HwT HI) as [Hm Hme].
  split; [exact Hm|]. intros t o Ht Ho. rewrite Hme by lia.
  apply sum_n_ext. intros i Hi. rewrite HwTe by lia. reflexivity.
Qed.

(** [LinearFn.forward] computes [x @ weight.T + bias]: on an
    input of shape (T, I), a weight of shape (O, I) and a bias of length O
    (I and O positive) the output has shape (T, O) and entry (t, o) is
    [sum_i x[t][i] * weight[o][i] + bias[o]]. *)
Theorem LinearFn_forward_entries T I O x weight bias
  (HI : (0 < I)%nat) (HO : (0 < O)%nat)
  (Hx : is_mat T I x) (Hw : is_mat O I weight) (Hb : length bias = O) :
  is_mat T O (fst (LinearFn_forward x weight bias)) /\
  forall t o, (t < T)%nat -> (o < O)%nat ->
    Mget (fst (LinearFn_forward x weight bias)) t o
    = sum_n (fun i => Mget x t i * Mget weight o i) I + nth o bias 0.
Proof.
  destruct (linear_out_entries T I O x weight HI HO Hx Hw) as [Hm Hme].
  unfold LinearFn_forward; cbn [fst]. split.
  - apply is_mat_bcast_row; assumption.
  - intros t o Ht Ho. rewrite (Mget_bcast_row T O t o Ht Ho) by assumption.
    rewrite Hme by assumption. reflexivity.
Qed.

Lemma LinearFn_forward_entries_witness :
  Mget (fst (LinearFn_forward [[1; 2]] [[3; 4]; [5; 6]; [7; 8]] [1; 1; 1])) 0 2
  = sum_n (fun i => Mget [[1; 2]] 0 i * Mget [[3; 4]; [5; 6]; [7; 8]] 2 i) 2
    + nth 2 [1; 1; 1] 0.
Proof.
  apply (LinearFn_forward_entries 1 2 3); try lia;
    try (split; [reflexivity|]; repeat constructor); reflexivity.
Defined.

Lemma linear_backward_parts T I O (ctx : LINctx) (y_grad : Mat) :
  (0 < T)%nat -> (0 < O)%nat ->
  is_mat T I (li_x ctx) -> is_mat O I (li_weight ctx) -> is_mat T O y_grad ->
  let '(dx, dw, db) := LinearFn_backward ctx y_grad in
  (is_mat T I dx /\ forall t i, (t < T)%nat -> (i < I)%nat ->
     Mget dx t i = sum_n (fun o => Mget y_grad t o * Mget (li_weight ctx) o i) O) /\
  (is_mat O I dw /\ forall o i, (o < O)%nat -> (i < I)%nat ->
     Mget dw o i = sum_n (fun t => Mget y_grad t o * Mget (li_x ctx) t i) T) /\
  (length db = O /\ forall o, (o < O)%nat ->
     nth o db 0 = sum_n (fun t => Mget y_grad t o) T).
Proof.
  intros HT HO Hx Hw Hg. unfold LinearFn_backward.
  assert (Hhd : length (hd [] y_grad) = O) by
    (pose proof (shape2_is_mat T O y_grad Hg HT) as H; unfold shape2 in H; congruence).
  destruct (is_mat_matmul T O I y_grad (li_weight ctx) Hg Hw HO) as [Hdx Hdxe].
  destruct (is_mat_transpose T O y_grad Hg HT) as [HgT HgTe].
  destruct (is_mat_matmul O T I (transpose y_grad) (li_x ctx) HgT Hx HT) as [Hdw Hdwe].
  rewrite Hhd. destruct (sum0_spec O y_grad (proj2 Hg)) as [Hdb Hdbe].
  split; [|split].
  - split; [exact Hdx|exact Hdxe].
  - split; [exact Hdw|]. intros o i Ho Hi. rewrite Hdwe by assumption.
    apply sum_n_ext. intros t Ht. rewrite HgTe by assumption. reflexivity.
  - split; [exact Hdb|]. intros o Ho. rewrite Hdbe, (proj1 Hg) by assumption.
    reflexivity.
Qed.

(** [LinearFn.backward] computes [dx = y_grad @ weight],
    [dw = y_grad.T @ x] and [db = y_grad.sum(0)]: for x of shape (T, I),
    weight of shape (O, I) and y_grad of shape (T, O) (T and O positive),
    dx has shape (T, I) with [dx[t][i] = sum_o y_grad[t][o] * weight[o][i]],
    dw has shape (O, I) with [dw[o][i] = sum_t y_grad[t][o] * x[t][i]],
    and db has length O with [db[o] = sum_t y_grad[t][o]]. *)
Theorem LinearFn_backward_entries T I O x weight bias y_grad
  (HT : (0 < T)%nat) (HO : (0 < O)%nat)
  (Hx : is_mat T I x) (Hw : is_mat O I weight) (Hg : is_mat T O y_grad) :
  let '(dx, dw, db) :=
    LinearFn_backward (snd (LinearFn_forward x weight bias)) y_grad in
  (is_mat T I dx /\ forall t i, (t < T)%nat -> (i < I)%nat ->
     Mget dx t i = sum_n (fun o => Mget y_grad t o * Mget weight o i) O) /\
  (is_mat O I dw /\ forall o i, (o < O)%nat -> (i < I)%nat ->
     Mget dw o i = sum_n (fun t => Mget y_grad t o * Mget x t i) T) /\
  (length db = O /\ forall o, (o < O)%nat ->
     nth o db 0 = sum_n (fun t => Mget y_grad t o) T).
Proof.
  exact (linear_backward_parts T I O
           {| li_x := x; li_weight := weight; li_bias := bias |} y_grad HT HO Hx Hw Hg).
Qed.

Lemma LinearFn_backward_entries_witness :
  let '(dx, dw, db) :=
    LinearFn_backward (snd (LinearFn_forward [[1; 2]; [3; 4]] [[5; 6]] [0])) [[1]; [2]] in
  (is_mat 2 2 dx /\ forall t i, (t < 2)%nat -> (i < 2)%nat ->
     Mget dx t i = sum_n (fun o => Mget [[1]; [2]] t o * Mget [[5; 6]] o i) 1) /\
  (is_mat 1 2 dw /\ forall o i, (o < 1)%nat -> (i < 2)%nat ->
     Mget dw o i = sum_n (fun t => Mget [[1]; [2]] t o * Mget [[1; 2]; [3; 4]] t i) 2) /\
  (length db = 1%nat /\ forall o, (o < 1)%nat ->
     nth o db 0 = sum_n (fun t => Mget [[1]; [2]] t o) 2).
Proof.
  apply (LinearFn_backward_entries 2 2 1); try lia;
    split; try reflexivity; repeat constructor.
Defined.

(** [LinearFn.backward] returns the adjoint of the forward map:
    for every direction (x', w', b') of the shapes of (x, weight, bias),
    pairing y_grad with the forward's change [x' @ weight.T], [x @ w'.T]
    and [b'] gives the pairing of dx with x', of dw with w' and of db
    with b'. *)
Theorem LinearFn_backward_adjoint T I O x weight bias y_grad x' w' b'
  (HT : (0 < T)%nat) (HI : (0 < I)%nat) (HO : (0 < O)%nat)
  (Hx : is_mat T I x) (Hw : is_mat O I weight) (Hg : is_mat T O y_grad)
  (Hx' : is_mat T I x') (Hw' : is_mat O I w') (Hb' : length b' = O) :
  let '(dx, dw, db) :=
    LinearFn_backward (snd (LinearFn_forward x weight bias)) y_grad in
  frob T O y_grad (matmul x' (transpose weight)) = frob T I dx x' /\
  frob T O y_grad (matmul x (transpose w')) = frob O I dw w' /\
  sum_n (fun t => sum_n (fun o => Mget y_grad t o * nth o b' 0) O) T
    = sum_n (fun o => nth o db 0 * nth o b' 0) O.
Proof.
  pose proof (linear_backward_parts T I O
           {| li_x := x; li_weight := weight; li_bias := bias |} y_grad HT HO Hx Hw Hg)
    as Hparts.
  cbn [snd LinearFn_forward li_x li_weight] in *.
  destruct (LinearFn_backward _ y_grad) as [[dx dw] db].
  destruct Hparts as [[_ Hdx] [[_ Hdw] [_ Hdb]]].
  destruct (linear_out_entries T I O x' weight HI HO Hx' Hw) as [_ H1].
  destruct (linear_out_entries T I O x w' HI HO Hx Hw') as [_ H2].
  unfold frob. split; [|split].
  - apply sum_n_ext. intros t Ht.
    rewrite (sum_n_ext _ (fun o => sum_n (fun i => Mget y_grad t o * Mget weight o i
                                                  * Mget x' t i) I)).
    2:{ intros o Ho. rewrite H1 by assumption. rewrite <- sum_n_scale_l.
        apply sum_n_ext. intros. ring. }
    rewrite sum_n_swap. apply sum_n_ext. intros i Hi.
    rewrite Hdx by assumption. rewrite <- sum_n_scale_r. reflexivity.
  - rewrite (sum_n_ext _ (fun t => sum_n (fun o => sum_n (fun i =>
              Mget y_grad t o * Mget x t i * Mget w' o i) I) O)).
    2:{ intros t Ht. apply sum_n_ext. intros o Ho. rewrite H2 by assumption.
        rewrite <- sum_n_scale_l. apply sum_n_ext. intros. ring. }
    rewrite sum_n_swap. apply sum_n_ext. intros o Ho.
    rewrite sum_n_swap. apply sum_n_ext. intros i Hi.
    rewrite Hdw by assumption. rewrite <- sum_n_scale_r. reflexivity.
  - rewrite sum_n_swap. apply sum_n_ext. intros o Ho.
    rewrite Hdb by assumption. rewrite <- sum_n_scale_r. reflexivity.
Qed.

Lemma LinearFn_backward_adjoint_witness :
  let '(dx, dw, db) :=
    LinearFn_backward (snd (LinearFn_forward [[1; 2]] [[3; 4]] [0])) [[1]] in
  frob 1 1 [[1]] (matmul [[2; 2]] (transpose [[3; 4]])) = frob 1 2 dx [[2; 2]] /\
  frob 1 1 [[1]] (matmul [[1; 2]] (transpose [[1; 0]])) = frob 1 2 dw [[1; 0]] /\
  sum_n (fun t => sum_n (fun o => Mget [[1]] t o * nth o [5] 0) 1) 1
    = sum_n (fun o => nth o db 0 * nth o [5] 0) 1.
Proof.
  apply (LinearFn_backward_adjoint 1 2 1); try lia; try reflexivity;
    split; try reflexivity; repeat constructor.
Defined.

(** * LayerNormFn: more on the backward and the forward *)

Lemma ln_backward_dx_entry (T C : nat) (x : Mat) (gamma beta : Vec) (g : Mat) :
  is_mat T C x -> length gamma = C -> is_mat T C g -> (0 < T)%nat ->
  let dx := fst (fst (LayerNormFn_backward (snd (LayerNormFn_forward x gamma beta)) g)) in
  is_mat T C dx /\
  (forall t c, (t < T)%nat -> (c < C)%nat ->
     Mget dx t c =
       Mget g t c * nth c gamma 0 * inv_std x t
       - 1 / INR C * sum_n (fun c' => Mget g t c' * nth c' gamma 0 * inv_std x t) C
       - 1 / INR C * centered x t c
           * sum_n (fun c' => Mget g t c' * nth c' gamma 0 * centered x t c'
                               * inv_std x t ^ 3) C).
Proof.
  intros Hx Hgam Hg HT0. cbv zeta.
  pose proof (proj1 Hx) as HT. pose proof (proj1 Hg) as HTg.
  pose proof (ln_mu_is_mat T C x gamma beta Hx) as Hmu.
  pose proof (ln_sigma_length T C x gamma beta Hx) as Hsig.
  pose proof (shape2_is_mat T C x Hx HT0) as Hsx.
  pose proof (shape2_is_mat T C g Hg HT0) as Hsg.
  set (ctx := snd (LayerNormFn_forward x gamma beta)) in *.
  assert (Hxc : ln_x ctx = x) by reflexivity.
  assert (Hgc : ln_gamma ctx = gamma) by reflexivity.
  unfold LayerNormFn_backward. rewrite Hxc, Hsx, Hgc. cbv zeta. cbn [fst snd].
  assert (He1 : length (map (fun a => 1 / INR C * a) (einsum_tc_c_t_t g gamma (ln_sigma ctx))) = T)
    by (rewrite length_map; eapply length_einsum_tc_c_t_t; eauto).
  assert (He2 : length (einsum_tc_c_tc_t_t g gamma (ln_mu ctx) (map (fun a => a ^ 3) (ln_sigma ctx))) = T)
    by (eapply length_einsum_tc_c_tc_t_t; eauto).
  assert (HA : is_mat T C (bcast_col Rmult (bcast_row Rmult g gamma) (ln_sigma ctx)))
    by (apply is_mat_bcast_col; [apply is_mat_bcast_row|]; assumption).
  assert (HB : is_mat T C (bcast_col Rminus
                 (bcast_col Rmult (bcast_row Rmult g gamma) (ln_sigma ctx))
                 (map (fun a => 1 / INR C * a) (einsum_tc_c_t_t g gamma (ln_sigma ctx)))))
    by (apply is_mat_bcast_col; assumption).
  assert (HD : is_mat T C (bcast_col Rmult (mat_map (fun a => 1 / INR C * a) (ln_mu ctx))
                 (einsum_tc_c_tc_t_t g gamma (ln_mu ctx) (map (fun a => a ^ 3) (ln_sigma ctx)))))
    by (apply is_mat_bcast_col; [apply is_mat_mat_map|]; assumption).
  split; [apply is_mat_mat_zip; assumption|].
  intros t c Ht Hc.
  rewrite (Mget_mat_zip T C t c Ht Hc) by assumption.
  rewrite (Mget_bcast_col T C t c Ht Hc) by assumption.
  rewrite (Mget_bcast_col T C t c Ht Hc) by (try apply is_mat_bcast_row; assumption).
  rewrite (Mget_bcast_row T C t c Ht Hc) by assumption.
  rewrite (Mget_bcast_col T C t c Ht Hc) by (try apply is_mat_mat_map; assumption).
  rewrite (Mget_mat_map T C t c Ht Hc) by assumption.
  rewrite (nth_map_gen _ _ _ 0) by (rewrite (length_einsum_tc_c_t_t T C) by assumption; exact Ht).
  rewrite (nth_einsum_tc_c_t_t T C) by assumption.
  rewrite (nth_einsum_tc_c_tc_t_t T C) by assumption.
  unfold ctx. rewrite (Mget_mu_centered T C x gamma beta Hx t c Ht Hc).
  rewrite (sigma_inv_std T C x gamma beta Hx t Ht).
  f_equal. f_equal.
  apply sum_n_ext. intros c' Hc'. rewrite (Mget_mu_centered T C x gamma beta Hx t c' Ht Hc').
  rewrite (nth_map_gen _ _ _ 0) by (unfold ctx in Hsig; lia).
  rewrite (sigma_inv_std T C x gamma beta Hx t Ht). reflexivity.
Qed.

Lemma centered_row_sum T C x t :
  is_mat T C x -> (t < T)%nat -> (0 < C)%nat -> sum_n (fun c => centered x t c) C = 0.
Proof.
  intros Hx Ht HC. unfold centered, row_mean.
  rewrite sum_n_minus, sum_n_const. rewrite (is_mat_row T C x t Hx Ht).
  assert (INR C <> 0) by (apply not_0_INR; lia).
  replace (sum_n (Mget x t) C) with (sum_n (fun c => Mget x t c) C) by reflexivity.
  field. assumption.
Qed.

(** Every row of the input gradient [dx] returned by
    [LayerNormFn.backward] sums to zero: for an input of shape (T, C)
    (T and C positive), gain of length C and upstream gradient of shape
    (T, C), [sum_c dx[t][c] = 0] for every row t. *)
Theorem LayerNormFn_backward_dx_row_sum_zero (T C : nat) (x : Mat) (gamma beta : Vec) (g : Mat)
  (Hx : is_mat T C x) (Hgam : length gamma = C) (Hg : is_mat T C g)
  (HT : (0 < T)%nat) (HC : (0 < C)%nat) :
  forall t, (t < T)%nat ->
    sum_n (fun c => Mget (fst (fst (LayerNormFn_backward
                               (snd (LayerNormFn_forward x gamma beta)) g))) t c) C = 0.
Proof.
  intros t Ht.
  destruct (ln_backward_dx_entry T C x gamma beta g Hx Hgam Hg HT) as [_ He].
  etransitivity; [apply sum_n_ext; intros c Hc; apply (He t c Ht Hc)|].
  rewrite !sum_n_minus, sum_n_const.
  rewrite (sum_n_ext (fun c => 1 / INR C * centered x t c * _)
             (fun c => centered x t c * (1 / INR C *
                sum_n (fun c' => Mget g t c' * nth c' gamma 0 * centered x t c'
                                 * inv_std x t ^ 3) C)))
    by (intros; ring).
  rewrite !sum_n_scale_r. replace (sum_n (centered x t) C) with 0 by (symmetry; exact (centered_row_sum T C x t Hx Ht HC)).
  assert (INR C <> 0) by (apply not_0_INR; lia). field. assumption.
Qed.

Lemma LayerNormFn_backward_dx_row_sum_zero_witness :
  sum_n (fun c => Mget (fst (fst (LayerNormFn_backward
           (snd (LayerNormFn_forward [[1; 3]] [2; 1] [0; 0])) [[1; 5]]))) 0 c) 2 = 0.
Proof.
  apply (LayerNormFn_backward_dx_row_sum_zero 1 2); try lia; try reflexivity;
    split; try reflexivity; repeat constructor.
Defined.

Lemma vsum_map_shift r d : vsum (map (fun a => a + d) r) = vsum r + INR (length r) * d.
Proof.
  induction r as [|a r IH]; cbn [map vsum fold_right length]; [simpl; ring|].
  unfold vsum in IH. rewrite IH, S_INR. ring.
Qed.

Lemma center_shift r d :
  map (fun a => a + d - vmean (map (fun a => a + d) r)) r = map (fun a => a - vmean r) r.
Proof.
  destruct r as [|a0 r0]; [reflexivity|].
  unfold vmean. rewrite vsum_map_shift, length_map.
  assert (INR (length (a0 :: r0)) <> 0) by (apply not_0_INR; simpl; lia).
  apply map_ext. intros a. field. assumption.
Qed.

Lemma ln_mu_shift x gamma beta d : length d = length x ->
  ln_mu (snd (LayerNormFn_forward (bcast_col Rplus x d) gamma beta))
  = ln_mu (snd (LayerNormFn_forward x gamma beta)).
Proof.
  intros Hd.
  assert (Hl : length (bcast_col Rplus x d) = length x) by (apply length_bcast_col; exact Hd).
  destruct (ln_lengths (bcast_col Rplus x d) gamma beta) as (_ & H1 & _).
  destruct (ln_lengths x gamma beta) as (_ & H2 & _).
  apply (nth_ext _ _ [] []); [congruence|].
  intros t Ht. rewrite H1, Hl in Ht.
  rewrite ln_row_mu, ln_row_mu by lia.
  rewrite nth_bcast_col by lia. unfold row_m. rewrite nth_bcast_col by lia.
  rewrite map_map. apply center_shift.
Qed.

Lemma shape2_bcast_col f x d : length d = length x -> shape2 (bcast_col f x d) = shape2 x.
Proof.
  intros Hd. unfold shape2. rewrite length_bcast_col by exact Hd. f_equal.
  destruct x as [|r x]; [reflexivity|]. destruct d as [|a d]; [discriminate|].
  simpl. apply length_map.
Qed.

(** LayerNorm is invariant under a shift of each row: adding a
    constant [d[t]] to every entry of row t of the input (a tensor [d] with
    one entry per row, broadcast over the columns) leaves the output of
    [LayerNormFn.forward] unchanged, and so are the three gradients that
    [LayerNormFn.backward] computes from the saved context for any
    upstream gradient. *)
Theorem LayerNormFn_row_shift_invariant x gamma beta d (Hd : length d = length x) :
  fst (LayerNormFn_forward (bcast_col Rplus x d) gamma beta)
    = fst (LayerNormFn_forward x gamma beta) /\
  forall y_grad,
    LayerNormFn_backward (snd (LayerNormFn_forward (bcast_col Rplus x d) gamma beta)) y_grad
    = LayerNormFn_backward (snd (LayerNormFn_forward x gamma beta)) y_grad.
Proof.
  pose proof (ln_mu_shift x gamma beta d Hd) as Hmu.
  split.
  - change (fst (LayerNormFn_forward ?z gamma beta)) with
      (let mu := ln_mu (snd (LayerNormFn_forward z gamma beta)) in
       bcast_row Rplus (bcast_row Rmult (bcast_col Rmult mu
          (map (fun a => rsqrt (a + eps)) (mean1 (mat_map (fun a => a ^ 2) mu)))) gamma) beta).
    cbv zeta. rewrite Hmu. reflexivity.
  - intros y_grad.
    change (LayerNormFn_backward (snd (LayerNormFn_forward ?z gamma beta)) y_grad) with
      (let mu := ln_mu (snd (LayerNormFn_forward z gamma beta)) in
       LayerNormFn_backward
         {| ln_x := z; ln_gamma := gamma; ln_beta := beta; ln_m := mean1 z; ln_mu := mu;
            ln_v := mean1 (mat_map (fun a => a ^ 2) mu);
            ln_sigma := map (fun a => rsqrt (a + eps)) (mean1 (mat_map (fun a => a ^ 2) mu));
            ln_y := [] |} y_grad).
    cbv zeta. rewrite Hmu. unfold LayerNormFn_backward. cbn [ln_x ln_gamma ln_mu ln_sigma].
    rewrite shape2_bcast_col by exact Hd. reflexivity.
Qed.

Lemma LayerNormFn_row_shift_invariant_witness :
  fst (LayerNormFn_forward (bcast_col Rplus [[1; 3]; [0; 4]] [5; -2]) [1; 1] [0; 0])
    = fst (LayerNormFn_forward [[1; 3]; [0; 4]] [1; 1] [0; 0]) /\
  forall y_grad,
    LayerNormFn_backward (snd (LayerNormFn_forward (bcast_col Rplus [[1; 3]; [0; 4]] [5; -2])
                                 [1; 1] [0; 0])) y_grad
    = LayerNormFn_backward (snd (LayerNormFn_forward [[1; 3]; [0; 4]] [1; 1] [0; 0])) y_grad.
Proof. apply LayerNormFn_row_shift_invariant. reflexivity. Defined.

(** * CrossEntropyFn: errors, sign and invariance of the loss *)

(** CrossEntropy's forward raises [IndexError] when a target lies
    outside [-C, C): for logits of shape (T, C) and targets of length T,
    one target [k] with [k < -C] or [C <= k] makes torch's [s[arange(T), y]]
    fail. *)
Theorem CrossEntropyFn_forward_target_out_of_range (T C : nat) (x : Mat) (y : list Z)
  (Hx : is_mat T C x) (Hy : length y = T)
  (Hbad : exists k, In k y /\ (k < - Z.of_nat C \/ Z.of_nat C <= k)%Z) :
  CrossEntropyFn_forward x y = Err IndexError.
Proof. exact (ce_forward_out_of_range_err T C x y Hx Hy Hbad). Qed.

Lemma CrossEntropyFn_forward_target_out_of_range_witness :
  CrossEntropyFn_forward [[0; 1]; [2; 3]] [0%Z; 2%Z] = Err IndexError.
Proof.
  apply (CrossEntropyFn_forward_target_out_of_range 2 2).
  - split; [reflexivity|]. repeat constructor.
  - reflexivity.
  - exists 2%Z. split; [simpl; auto | lia].
Defined.

Lemma ln_nonpos a : 0 < a -> a <= 1 -> ln a <= 0.
Proof.
  intros H0 H1. destruct (Rle_lt_or_eq_dec a 1 H1) as [Hl|He].
  - rewrite <- ln_1. left. apply ln_increasing; assumption.
  - rewrite He, ln_1. lra.
Qed.

Lemma sum_n_ge_term f n c :
  (forall i, 0 <= f i) -> (c < n)%nat -> f c <= sum_n f n.
Proof.
  intros Hf Hc. induction n as [|n IH]; [lia|]. cbn [sum_n].
  assert (Hs : 0 <= sum_n f n).
  { clear IH Hc. induction n as [|n IHn]; cbn [sum_n]; [lra|]. specialize (Hf n). lra. }
  destruct (Nat.eq_dec c n) as [->|Hne]; [lra|].
  specialize (Hf n). pose proof (IH ltac:(lia)). lra.
Qed.

Lemma sum_n_nonpos f n : (forall i, (i < n)%nat -> f i <= 0) -> sum_n f n <= 0.
Proof.
  induction n as [|n IH]; intros Hf; cbn [sum_n]; [lra|].
  pose proof (Hf n ltac:(lia)). pose proof (IH ltac:(intros; apply Hf; lia)). lra.
Qed.

Lemma inv_INR_nonneg n : 0 <= / INR n.
Proof.
  destruct n as [|n]; [simpl; rewrite Rinv_0; lra|].
  left. apply Rinv_0_lt_compat, lt_0_INR. lia.
Qed.

Lemma softmax_bounds x t c :
  (c < length (nth t x []))%nat -> 0 < softmax x t c <= 1.
Proof.
  intros Hc. unfold softmax.
  assert (Hpos : 0 < sum_n (fun c' => exp (Mget x t c')) (length (nth t x [])))
    by (apply sum_n_pos; [intros; apply exp_pos | lia]).
  assert (Hle : exp (Mget x t c) <= sum_n (fun c' => exp (Mget x t c')) (length (nth t x [])))
    by (apply (sum_n_ge_term (fun c' => exp (Mget x t c'))); [intros; left; apply exp_pos | exact Hc]).
  pose proof (exp_pos (Mget x t c)). split.
  - apply Rdiv_lt_0_compat; assumption.
  - apply Rmult_le_reg_r with (r := sum_n (fun c' => exp (Mget x t c')) (length (nth t x []))).
    + exact Hpos.
    + unfold Rdiv. rewrite Rmult_assoc, Rinv_l by lra. lra.
Qed.

(** The loss returned by CrossEntropy's forward is nonnegative: for
    logits of shape (T, C) with T > 0 (a nonempty batch) and targets of
    length T in [-C, C), the forward succeeds and its loss is at least 0
    (each softmax probability is at most 1). *)
Theorem CrossEntropyFn_forward_loss_nonneg (T C : nat) (x : Mat) (y : list Z)
  (HT0 : (0 < T)%nat) (Hx : is_mat T C x) (Hy : length y = T)
  (Hr : Forall (fun k => - Z.of_nat C <= k < Z.of_nat C)%Z y) :
  exists L ctx, CrossEntropyFn_forward x y = Ok (L, ctx) /\ 0 <= L.
Proof.
  rewrite (CrossEntropyFn_forward_eq T C x y Hx Hy Hr).
  eexists _, _. split; [reflexivity|].
  rewrite vmean_map_seq. unfold Rdiv.
  assert (Hs : sum_n (fun t => ln (softmax x t (ce_target C y t))) T <= 0).
  { assert (Hneg : forall t, (t < T)%nat -> ln (softmax x t (ce_target C y t)) <= 0).
    { intros t Ht. rewrite Forall_nth in Hr. specialize (Hr t 0%Z ltac:(lia)).
      pose proof (py_wrap_lt C _ Hr) as Hk.
      destruct (softmax_bounds x t (ce_target C y t)) as [H0 H1].
      { rewrite (is_mat_row T C x t Hx Ht). exact Hk. }
      apply ln_nonpos; assumption. }
    apply sum_n_nonpos. exact Hneg. }
  pose proof (inv_INR_nonneg T).
  assert (0 <= - sum_n (fun t => ln (softmax x t (ce_target C y t))) T) by lra.
  replace (- (sum_n (fun t => ln (softmax x t (ce_target C y t))) T * / INR T))
    with ((- sum_n (fun t => ln (softmax x t (ce_target C y t))) T) * / INR T) by ring.
  apply Rmult_le_pos; assumption.
Qed.

Lemma CrossEntropyFn_forward_loss_nonneg_witness :
  exists L ctx, CrossEntropyFn_forward [[0; 1]; [2; 3]] [1%Z; (-2)%Z] = Ok (L, ctx) /\ 0 <= L.
Proof.
  apply (CrossEntropyFn_forward_loss_nonneg 2 2).
  - lia.
  - split; [reflexivity|]. repeat constructor.
  - reflexivity.
  - repeat constructor; simpl; lia.
Defined.

Lemma vsum_map_scale_exp r d :
  vsum (map exp (map (fun a => a + d) r)) = vsum (map exp r) * exp d.
Proof.
  induction r as [|a r IH]; cbn [map vsum fold_right]; [simpl; ring|].
  unfold vsum in IH. rewrite IH, exp_plus. ring.
Qed.

Lemma ce_s_shift x d : length d = length x ->
  ce_s_of (bcast_col Rplus x d) = ce_s_of x.
Proof.
  intros Hd.
  assert (Hl : length (bcast_col Rplus x d) = length x) by (apply length_bcast_col; exact Hd).
  apply (nth_ext _ _ [] []); [rewrite !length_ce_s; exact Hl|].
  intros t Ht. rewrite length_ce_s, Hl in Ht.
  rewrite !row_ce_s by lia. rewrite nth_bcast_col by lia.
  rewrite vsum_map_scale_exp, !map_map. apply map_ext. intros a.
  rewrite exp_plus. pose proof (exp_pos (nth t d 0)).
  assert (0 < vsum (map exp (nth t x [])) \/ vsum (map exp (nth t x [])) = 0) as [Hp|Hz].
  { destruct (nth t x []) as [|a0 r0]; [right; reflexivity|left].
    cbn [map vsum fold_right]. pose proof (exp_pos a0).
    pose proof (vsum_map_nonneg exp r0 (fun b => Rlt_le _ _ (exp_pos b))). unfold vsum in *. lra. }
  - field. split; lra.
  - rewrite Hz, Rmult_0_l. unfold Rdiv. rewrite Rinv_0. ring.
Qed.

Lemma CrossEntropyFn_forward_unfold x y :
  CrossEntropyFn_forward x y =
  (let '(T, C) := shape2 x in
   p <- gather2 (ce_s_of x) (arange T) y ;;
   Ok (- vmean (map ln p), ce_ctx_of x y)).
Proof. reflexivity. Qed.

(** CrossEntropy is invariant under a shift of each row of the
    logits: adding [d[t]] to every logit of row t (d with one entry per
    row) leaves the saved softmax [s], hence the outcome of the forward
    (the same loss or the same exception) and the gradient of the
    backward, unchanged. *)
Theorem CrossEntropyFn_row_shift_invariant x d y (Hd : length d = length x) :
  match CrossEntropyFn_forward (bcast_col Rplus x d) y, CrossEntropyFn_forward x y with
  | Ok (L', ctx'), Ok (L, ctx) => L' = L /\ ce_s ctx' = ce_s ctx /\ ce_y ctx' = ce_y ctx
  | Err e', Err e => e' = e
  | _, _ => False
  end /\
  forall y_grad,
    CrossEntropyFn_backward (ce_ctx_of (bcast_col Rplus x d) y) y_grad
    = CrossEntropyFn_backward (ce_ctx_of x y) y_grad.
Proof.
  pose proof (ce_s_shift x d Hd) as Hs. pose proof (shape2_bcast_col Rplus x d Hd) as Hsh.
  split.
  - rewrite !CrossEntropyFn_forward_unfold, Hsh, Hs.
    destruct (shape2 x) as [T C]. destruct (gather2 (ce_s_of x) (arange T) y); cbn [bind].
    + unfold ce_ctx_of; cbn [ce_s ce_y]. auto.
    + reflexivity.
  - intros y_grad. unfold CrossEntropyFn_backward, ce_ctx_of; cbn [ce_x ce_y ce_s].
    rewrite Hsh, Hs. reflexivity.
Qed.

Lemma CrossEntropyFn_row_shift_invariant_witness :
  match CrossEntropyFn_forward (bcast_col Rplus [[0; 1]; [2; 3]] [5; -1]) [1%Z; 0%Z],
        CrossEntropyFn_forward [[0; 1]; [2; 3]] [1%Z; 0%Z] with
  | Ok (L', ctx'), Ok (L, ctx) => L' = L /\ ce_s ctx' = ce_s ctx /\ ce_y ctx' = ce_y ctx
  | Err e', Err e => e' = e
  | _, _ => False
  end /\
  forall y_grad,
    CrossEntropyFn_backward (ce_ctx_of (bcast_col Rplus [[0; 1]; [2; 3]] [5; -1]) [1%Z; 0%Z]) y_grad
    = CrossEntropyFn_backward (ce_ctx_of [[0; 1]; [2; 3]] [1%Z; 0%Z]) y_grad.
Proof. apply CrossEntropyFn_row_shift_invariant. reflexivity. Defined.

(** * EmbeddingFn: indexing, errors and adjointness *)

Lemma embedding_forward_rows (x : list Z) (emb : Mat) :
  Forall (fun k => - Z.of_nat (length emb) <= k < Z.of_nat (length emb))%Z x ->
  EmbeddingFn_forward x emb =
  Ok (map (fun k => nth (py_wrap (length emb) k) emb []) x, {| em_x := x; em_emb := emb |}).
Proof.
  intros Hr. unfold EmbeddingFn_forward.
  rewrite (mapR_ok _ (fun k => nth (py_wrap (length emb) k) emb [])); [reflexivity|].
  intros k Hk. rewrite Forall_forall in Hr. apply py_index_ok. apply Hr. exact Hk.
Qed.

Lemma index_add_err (idx : list Z) :
  forall acc src N,
  length acc = N ->
  (exists k, In k idx /\ (k < 0 \/ Z.of_nat N <= k)%Z) \/ length idx <> length src ->
  index_add acc idx src = Err IndexError.
Proof.
  induction idx as [|i idx IH]; intros acc src N HN Hbad.
  - destruct Hbad as [[k [[] _]] | Hl]. destruct src; [simpl in Hl; lia | reflexivity].
  - destruct src as [|r src]; [reflexivity|]. cbn [index_add].
    destruct ((0 <=? i)%Z && (i <? Z.of_nat (length acc))%Z)%bool eqn:E; [|reflexivity].
    apply andb_true_iff in E as [E1 E2]. apply Z.leb_le in E1. apply Z.ltb_lt in E2.
    apply (IH _ _ N); [rewrite length_set_nth; exact HN|].
    destruct Hbad as [[k [[<-|Hk] Hout]] | Hl].
    + lia.
    + left. exists k. split; assumption.
    + right. simpl in Hl. lia.
Qed.

(** A negative index passes Embedding's forward (it counts from the
    end of the table) but makes its backward raise: for a table of shape
    (N, D) with D > 0 and indices in [-N, N) of which one is negative, the
    forward succeeds and [torch.index_add] in the backward rejects the
    saved indices with an exception, whatever the upstream gradient. *)
Theorem EmbeddingFn_negative_index_backward_error (N D : nat) (x : list Z) (emb g : Mat)
  (He : is_mat N D emb) (HD : (0 < D)%nat)
  (Hr : Forall (fun k => - Z.of_nat N <= k < Z.of_nat N)%Z x)
  (Hneg : exists k, In k x /\ (k < 0)%Z) :
  exists out ctx e, EmbeddingFn_forward x emb = Ok (out, ctx) /\
    EmbeddingFn_backward ctx g = Err e.
Proof.
  pose proof (proj1 He) as HN.
  eexists _, _, IndexError. split; [apply embedding_forward_rows; rewrite HN; exact Hr|].
  unfold EmbeddingFn_backward; cbn [em_x em_emb].
  rewrite (index_add_err x (zeros_like emb) g N); [reflexivity| |].
  - unfold zeros_like, mat_map. rewrite length_map. exact HN.
  - left. destruct Hneg as [k [Hk Hk0]]. exists k. split; [exact Hk | lia].
Qed.

Lemma EmbeddingFn_negative_index_backward_error_witness :
  exists out ctx e, EmbeddingFn_forward [0%Z; (-1)%Z] [[5; 6]; [7; 8]] = Ok (out, ctx) /\
    EmbeddingFn_backward ctx [[1; 1]; [1; 1]] = Err e.
Proof.
  apply (EmbeddingFn_negative_index_backward_error 2 2).
  - split; [reflexivity|]. repeat constructor.
  - lia.
  - repeat constructor; simpl; lia.
  - exists (-1)%Z. split; [simpl; auto | lia].
Defined.



Lemma sum_n_select f n j :
  (j < n)%nat -> sum_n (fun k => if Nat.eqb k j then f k else 0) n = f j.
Proof.
  intros Hj. induction n as [|n IH]; [lia|]. cbn [sum_n].
  destruct (Nat.eqb_spec n j) as [->|Hne].
  - rewrite (sum_n_ext _ (fun _ => 0 * 0)).
    + rewrite sum_n_scale_l. ring.
    + intros k Hk. destruct (Nat.eqb_spec k j); [lia | ring].
  - rewrite IH by lia. ring.
Qed.

(** Embedding's backward is the adjoint of its forward, which is
    linear in the table: for indices of length T in [0, N), tables of
    shape (N, D) and an upstream gradient [g] of shape (T, D), pairing the
    table gradient [demb] with any table [E'] equals pairing [g] with the
    rows [E'[x]] that the forward picks from [E']. *)
Theorem EmbeddingFn_backward_adjoint (T N D : nat) (x : list Z) (emb g E' : Mat)
  (He : is_mat N D emb) (Hx : length x = T) (Hr : Forall (fun k => 0 <= k < Z.of_nat N)%Z x)
  (Hg : is_mat T D g) (HE' : is_mat N D E') :
  exists out ctx demb,
    EmbeddingFn_forward x emb = Ok (out, ctx) /\
    EmbeddingFn_backward ctx g = Ok (None, demb) /\
    forall out' ctx', EmbeddingFn_forward x E' = Ok (out', ctx') ->
      frob N D demb E' = frob T D g out'.
Proof.
  pose proof (proj1 He) as HN. pose proof (proj1 HE') as HN'.
  assert (Hr' : forall l : Mat, length l = N ->
            Forall (fun k => - Z.of_nat (length l) <= k < Z.of_nat (length l))%Z x).
  { intros l Hl. rewrite Hl. rewrite Forall_forall in *. intros a Ha. specialize (Hr a Ha). lia. }
  assert (Hg' : is_mat (length x) D g) by (rewrite Hx; exact Hg).
  destruct (index_add_spec N D x (zeros_like emb) g (is_mat_zeros_like N D emb He) Hg' Hr)
    as (demb & Hd & _ & Hde).
  eexists _, _, demb. split; [apply embedding_forward_rows, Hr'; exact HN|].
  split; [unfold EmbeddingFn_backward; cbn [em_x em_emb]; rewrite Hd; reflexivity|].
  intros out' ctx' Hf. rewrite (embedding_forward_rows x E' (Hr' E' HN')) in Hf.
  inversion Hf; subst out' ctx'. clear Hf.
  unfold frob.
  rewrite (sum_n_ext _ (fun k => sum_n (fun c => sum_n (fun i =>
              if Nat.eqb k (Z.to_nat (nth i x 0%Z)) then Mget g i c * Mget E' k c else 0)
              (length x)) D) N).
  2:{ intros k Hk. apply sum_n_ext. intros c Hc.
      rewrite Hde by assumption. rewrite (Mget_zeros_like N D emb k c He).
      unfold scatter_spec. rewrite Rplus_0_l, <- sum_n_scale_r. apply sum_n_ext.
      intros i Hi. rewrite Forall_nth in Hr. specialize (Hr i 0%Z Hi).
      destruct (Z.eqb_spec (nth i x 0%Z) (Z.of_nat k));
        destruct (Nat.eqb_spec k (Z.to_nat (nth i x 0%Z))); try lia; ring. }
  rewrite sum_n_swap. rewrite Hx.
  rewrite (sum_n_ext _ (fun c => sum_n (fun i => sum_n (fun k =>
              if Nat.eqb k (Z.to_nat (nth i x 0%Z)) then Mget g i c * Mget E' k c else 0)
              N) T) D) by (intros; apply sum_n_swap).
  rewrite sum_n_swap. apply sum_n_ext. intros i Hi. apply sum_n_ext. intros c Hc.
  rewrite Forall_nth in Hr. specialize (Hr i 0%Z ltac:(lia)).
  rewrite (sum_n_select (fun k => Mget g i c * Mget E' k c)) by lia.
  f_equal. unfold Mget. rewrite (nth_map_gen _ _ _ 0%Z) by lia.
  rewrite py_wrap_nonneg by lia. reflexivity.
Qed.

Lemma EmbeddingFn_backward_adjoint_witness :
  exists out ctx demb,
    EmbeddingFn_forward [1%Z; 1%Z; 0%Z] [[5]; [7]] = Ok (out, ctx) /\
    EmbeddingFn_backward ctx [[2]; [3]; [4]] = Ok (None, demb) /\
    forall out' ctx', EmbeddingFn_forward [1%Z; 1%Z; 0%Z] [[1]; [10]] = Ok (out', ctx') ->
      frob 2 1 demb [[1]; [10]] = frob 3 1 [[2]; [3]; [4]] out'.
Proof.
  apply (EmbeddingFn_backward_adjoint 3 2 1); try reflexivity;
    try (split; [reflexivity | repeat constructor]); repeat constructor; simpl; lia.
Defined.

(** * GELUFn: the backward is the derivative of the forward *)

Lemma cosh_pos z : 0 < cosh z.
Proof. unfold cosh. pose proof (exp_pos z). pose proof (exp_pos (- z)). lra. Qed.

Lemma derivable_pt_lim_tanh z : derivable_pt_lim tanh z (1 / cosh z ^ 2).
Proof.
  pose proof (cosh_pos z) as Hc.
  assert (Hd := derivable_pt_lim_div sinh cosh z (cosh z) (sinh z)
                  (derivable_pt_lim_sinh z) (derivable_pt_lim_cosh z) ltac:(lra)).
  replace (1 / cosh z ^ 2) with ((cosh z * cosh z - sinh z * sinh z) / Rsqr (cosh z)).
  - exact Hd.
  - unfold Rsqr. f_equal; [|ring].
    assert (He : exp z * exp (- z) = 1) by (rewrite <- exp_plus, Rplus_opp_r; apply exp_0).
    unfold cosh, sinh. lra.
Qed.

Lemma derivable_pt_lim_gelu a z0 :
  derivable_pt_lim (fun z => 1 / 2 * z * (1 + tanh (a * (z + gelu_c * z ^ 3)))) z0
    (1 / 2 * (1 + tanh (a * (z0 + gelu_c * z0 ^ 3)))
     + 1 / 2 * z0 * (1 / cosh (a * (z0 + gelu_c * z0 ^ 3)) ^ 2
                     * (a * (1 + 3 * gelu_c * z0 ^ 2)))).
Proof.
  pose (p := fun z => a * (z + gelu_c * z ^ 3)).
  assert (Hp : derivable_pt_lim p z0 (a * (1 + gelu_c * (INR 3 * z0 ^ 2)))).
  { apply (derivable_pt_lim_scal (fun z => z + gelu_c * z ^ 3) a z0).
    apply (derivable_pt_lim_plus id (fun z => gelu_c * z ^ 3)).
    - apply derivable_pt_lim_id.
    - apply (derivable_pt_lim_scal (fun z => z ^ 3)). apply (derivable_pt_lim_pow z0 3). }
  assert (Ht := derivable_pt_lim_comp p tanh z0 _ _ Hp (derivable_pt_lim_tanh (p z0))).
  assert (H1 := derivable_pt_lim_plus (fct_cte 1) (comp tanh p) z0 _ _
                  (derivable_pt_lim_const 1 z0) Ht).
  assert (Hl := derivable_pt_lim_scal id (1 / 2) z0 _ (derivable_pt_lim_id z0)).
  assert (H := derivable_pt_lim_mult _ _ z0 _ _ Hl H1).
  unfold mult_real_fct, plus_fct, fct_cte, comp, id, p in H. cbn [INR] in H.
  match type of H with derivable_pt_lim _ _ ?l =>
    replace (1 / 2 * (1 + tanh (a * (z0 + gelu_c * z0 ^ 3)))
     + 1 / 2 * z0 * (1 / cosh (a * (z0 + gelu_c * z0 ^ 3)) ^ 2
                     * (a * (1 + 3 * gelu_c * z0 ^ 2)))) with l by ring end.
  exact H.
Qed.

(** GELU's backward is the derivative of its forward: entry [i] of
    the gradient returned for an upstream gradient [g] is the derivative,
    at [x[i]], of [g[i]] times entry [i] of the forward's output seen as a
    function of input entry [i] (the other entries fixed). *)
Theorem GELUFn_backward_is_derivative (x g : Tensor) (i : nat)
  (Hg : length (data g) = length (data x)) (Hi : (i < length (data x))%nat) :
  derivable_pt_lim
    (fun z => nth i (data g) 0 *
              nth i (data (fst (GELUFn_forward (mkT (shape x) (set_nth i z (data x)))))) 0)
    (nth i (data x) 0)
    (nth i (data (GELUFn_backward (snd (GELUFn_forward x)) g)) 0).
Proof.
  apply (derivable_pt_lim_ext
           (fun z => nth i (data g) 0 * (1 / 2 * z * (1 + tanh (sqrt (2 / PI) * (z + gelu_c * z ^ 3)))))).
  - intros z. f_equal. unfold GELUFn_forward; cbn [fst].
    assert (Hl : length (data (mkT (shape x) (set_nth i z (data x)))) = length (data x))
      by apply length_set_nth.
    rewrite nth_tzip by (rewrite ?length_tmap; lia). rewrite nth_tmap by lia.
    cbn [data]. rewrite nth_set_nth, Nat.eqb_refl by lia. reflexivity.
  - unfold GELUFn_backward, GELUFn_forward; cbn [snd ge_x ge_a ge_b].
    rewrite nth_tzip by tlen. rewrite nth_tmap by tlen.
    rewrite nth_tzip by tlen. rewrite nth_tmap by tlen.
    rewrite nth_tzip by tlen. rewrite nth_tzip by tlen.
    rewrite !nth_tmap by tlen.
    assert (H := derivable_pt_lim_scal _ (nth i (data g) 0) (nth i (data x) 0) _
                   (derivable_pt_lim_gelu (sqrt (2 / PI)) (nth i (data x) 0))).
    unfold mult_real_fct in H.
    match type of H with derivable_pt_lim _ _ ?l =>
      replace (nth i (data g) 0 * (1 / 2) * _) with l by (unfold Rdiv; ring) end.
    exact H.
Qed.

Lemma GELUFn_backward_is_derivative_witness :
  derivable_pt_lim
    (fun z => nth 1 [3; 2] 0 *
              nth 1 (data (fst (GELUFn_forward (mkT [2%nat] (set_nth 1 z [1; -1]))))) 0)
    (nth 1 [1; -1] 0)
    (nth 1 (data (GELUFn_backward (snd (GELUFn_forward (mkT [2%nat] [1; -1])))
                   (mkT [2%nat] [3; 2]))) 0).
Proof.
  apply (GELUFn_backward_is_derivative (mkT [2%nat] [1; -1]) (mkT [2%nat] [3; 2]) 1);
    simpl; lia.
Defined.

(** * CrossEntropyFn: the backward is the gradient of the forward *)

Lemma nth_Mset_other M t c z t' : t' <> t -> nth t' (Mset M t c z) [] = nth t' M [].
Proof.
  intros Hne. unfold Mset.
  destruct (Nat.lt_ge_cases t (length M)) as [Ht|Ht].
  - rewrite nth_set_nth by exact Ht. destruct (Nat.eqb_spec t' t); [lia|reflexivity].
  - revert t t' Hne Ht. induction M as [|r M IH]; intros t t' Hne Ht; [destruct t; reflexivity|].
    simpl in Ht. destruct t as [|t]; [lia|]. destruct t' as [|t']; [reflexivity|].
    cbn [set_nth nth]. apply IH; lia.
Qed.

Lemma Mget_Mset T C M t c z t' c' :
  is_mat T C M -> (t < T)%nat -> (c < C)%nat ->
  Mget (Mset M t c z) t' c' = if (Nat.eqb t' t && Nat.eqb c' c)%bool then z else Mget M t' c'.
Proof.
  intros HM Ht Hc. destruct (Nat.eqb_spec t' t) as [->|Hne]; cbn [andb].
  - unfold Mget, Mset. rewrite nth_set_nth, Nat.eqb_refl by (rewrite (proj1 HM); exact Ht).
    rewrite nth_set_nth by (rewrite (is_mat_row T C M t HM Ht); exact Hc). reflexivity.
  - unfold Mget. rewrite nth_Mset_other by exact Hne. reflexivity.
Qed.

Lemma is_mat_Mset T C M t c z :
  is_mat T C M -> (t < T)%nat -> (c < C)%nat -> is_mat T C (Mset M t c z).
Proof.
  intros HM Ht Hc. apply is_mat_intro.
  - unfold Mset. rewrite length_set_nth. exact (proj1 HM).
  - intros t' Ht'. destruct (Nat.eq_dec t' t) as [->|Hne].
    + unfold Mset. rewrite nth_set_nth, Nat.eqb_refl by (rewrite (proj1 HM); exact Ht).
      rewrite length_set_nth. apply (is_mat_row T C M t HM Ht).
    + rewrite nth_Mset_other by exact Hne. apply (is_mat_row T C M t' HM Ht').
Qed.

Lemma derivable_pt_lim_sum_n (f : nat -> R -> R) (l : nat -> R) n z0 :
  (forall i, (i < n)%nat -> derivable_pt_lim (f i) z0 (l i)) ->
  derivable_pt_lim (fun z => sum_n (fun i => f i z) n) z0 (sum_n l n).
Proof.
  induction n as [|n IH]; intros Hf; cbn [sum_n].
  - apply (derivable_pt_lim_ext (fct_cte 0)); [intros; reflexivity|].
    apply derivable_pt_lim_const.
  - apply (derivable_pt_lim_plus (fun z => sum_n (fun i => f i z) n) (f n)).
    + apply IH. intros i Hi. apply Hf. lia.
    + apply Hf. lia.
Qed.

Lemma derivable_pt_lim_cte k z0 : derivable_pt_lim (fun _ => k) z0 0.
Proof. apply (derivable_pt_lim_const k z0). Qed.

Lemma sum_exp_pos f C : (0 < C)%nat -> 0 < sum_n (fun c' => exp (f c')) C.
Proof. intros HC. apply sum_n_pos; [intros; apply exp_pos | exact HC]. Qed.

Lemma ln_softmax x t k C :
  length (nth t x []) = C -> (0 < C)%nat ->
  ln (softmax x t k) = Mget x t k - ln (sum_n (fun c' => exp (Mget x t c')) C).
Proof.
  intros Hl HC. unfold softmax. rewrite Hl.
  pose proof (sum_exp_pos (Mget x t) C HC) as HS.
  unfold Rdiv. rewrite ln_mult by (try apply exp_pos; apply Rinv_0_lt_compat; exact HS).
  rewrite ln_exp, ln_Rinv by exact HS. ring.
Qed.

Lemma derivable_pt_lim_sel (b : bool) (a z0 : R) (h : R -> R) (dh : R) :
  derivable_pt_lim h z0 dh ->
  derivable_pt_lim (fun z => if b then h z else a) z0 (if b then dh else 0).
Proof.
  intros H. destruct b.
  - exact H.
  - apply derivable_pt_lim_cte.
Qed.

(** CrossEntropy's backward is the gradient of its forward: for
    logits [x] of shape (T, C), targets of length T in [-C, C) and an
    upstream gradient [g], entry (t, c) of the returned [dx] is the
    derivative, at [x[t][c]], of [g] times the loss of the forward seen as
    a function of that single logit. *)
Theorem CrossEntropyFn_backward_is_gradient (T C : nat) (x : Mat) (y : list Z) (g : R)
  (Hx : is_mat T C x) (Hy : length y = T)
  (Hr : Forall (fun k => - Z.of_nat C <= k < Z.of_nat C)%Z y)
  (t c : nat) (Ht : (t < T)%nat) (Hc : (c < C)%nat) :
  exists loss ctx dx,
    CrossEntropyFn_forward x y = Ok (loss, ctx) /\
    CrossEntropyFn_backward ctx g = Ok (dx, None) /\
    derivable_pt_lim (fun z => g * ce_loss_of (Mset x t c z) y) (Mget x t c) (Mget dx t c).
Proof.
  destruct (CrossEntropyFn_backward_entries T C x y Hx Hy Hr g) as (dx & Hb & _ & He).
  exists (- vmean (map (fun t => ln (softmax x t (ce_target C y t))) (seq 0 T))),
    (ce_ctx_of x y), dx.
  split; [exact (CrossEntropyFn_forward_eq T C x y Hx Hy Hr)|].
  split; [exact Hb|].
  rewrite He by assumption. clear He Hb.
  assert (HC : (0 < C)%nat) by lia.
  assert (HT : INR T <> 0) by (apply not_0_INR; lia).
  set (k := ce_target C y t).
  set (z0 := Mget x t c).
  set (S := fun z => sum_n (fun c' => exp (if Nat.eqb c' c then z else Mget x t c')) C).
  assert (HS0 : S z0 = sum_n (fun c' => exp (Mget x t c')) C).
  { unfold S. apply sum_n_ext. intros c' _. destruct (Nat.eqb_spec c' c) as [->|]; reflexivity. }
  assert (HSpos : 0 < S z0) by (rewrite HS0; apply sum_exp_pos; exact HC).
  set (G := fun z => sum_n (fun i => if Nat.eqb i t
                                     then (if Nat.eqb k c then z else Mget x t k) - ln (S z)
                                     else ln (softmax x i (ce_target C y i))) T).
  (* the loss as a function of the logit (t, c) *)
  apply (derivable_pt_lim_ext (fun z => (- g * / INR T) * G z)).
  { intros z. unfold ce_loss_of.
    rewrite (CrossEntropyFn_forward_eq T C (Mset x t c z) y (is_mat_Mset T C x t c z Hx Ht Hc)
               Hy Hr).
    cbv beta iota. rewrite vmean_map_seq. unfold G, Rdiv.
    replace (sum_n (fun t0 => ln (softmax (Mset x t c z) t0 (ce_target C y t0))) T)
      with (sum_n (fun i => if Nat.eqb i t
                            then (if Nat.eqb k c then z else Mget x t k) - ln (S z)
                            else ln (softmax x i (ce_target C y i))) T); [ring|].
    apply sum_n_ext. intros i Hi. destruct (Nat.eqb_spec i t) as [->|Hne].
    - rewrite (ln_softmax (Mset x t c z) t (ce_target C y t) C)
        by (try apply (is_mat_row T C _ t (is_mat_Mset T C x t c z Hx Ht Hc)); assumption).
      rewrite (Mget_Mset T C x t c z t) by assumption. rewrite Nat.eqb_refl. cbn [andb].
      fold k. f_equal. f_equal. unfold S. apply sum_n_ext. intros c' _.
      rewrite (Mget_Mset T C x t c z t) by assumption. rewrite Nat.eqb_refl. reflexivity.
    - unfold softmax, Mget. rewrite !nth_Mset_other by exact Hne. reflexivity. }
  (* derivative of the row's log-normaliser *)
  assert (HdS : derivable_pt_lim S z0 (exp z0)).
  { unfold S.
    replace (exp z0) with (sum_n (fun c' => if Nat.eqb c' c then exp z0 else 0) C)
      by (rewrite (sum_n_select (fun _ => exp z0)) by exact Hc; reflexivity).
    apply derivable_pt_lim_sum_n. intros c' _.
    apply (derivable_pt_lim_ext (fun z => if Nat.eqb c' c then exp z else exp (Mget x t c'))).
    - intros z. destruct (Nat.eqb c' c); reflexivity.
    - apply derivable_pt_lim_sel. apply derivable_pt_lim_exp. }
  assert (HdlnS := derivable_pt_lim_comp S ln z0 _ _ HdS (derivable_pt_lim_ln (S z0) HSpos)).
  assert (HdG : derivable_pt_lim G z0
                  (sum_n (fun i => if Nat.eqb i t
                                   then (if Nat.eqb k c then 1 else 0) - / S z0 * exp z0
                                   else 0) T)).
  { unfold G. apply derivable_pt_lim_sum_n. intros i _.
    apply (derivable_pt_lim_sel (Nat.eqb i t) _ z0
             (fun z => (if Nat.eqb k c then z else Mget x t k) - ln (S z))).
    apply (derivable_pt_lim_minus (fun z => if Nat.eqb k c then z else Mget x t k)
                                  (comp ln S)).
    - apply derivable_pt_lim_sel. apply derivable_pt_lim_id.
    - exact HdlnS. }
  assert (H := derivable_pt_lim_scal G (- g * / INR T) z0 _ HdG).
  unfold mult_real_fct in H.
  match type of H with derivable_pt_lim _ _ ?l => replace (g * _ / INR T) with l end.
  { exact H. }
  rewrite (sum_n_select (fun _ => (if Nat.eqb k c then 1 else 0) - / S z0 * exp z0))
    by exact Ht.
  unfold softmax. rewrite (is_mat_row T C x t Hx Ht). rewrite <- HS0. fold z0.
  rewrite Nat.eqb_sym. unfold Rdiv. field. split; [exact HT | lra].
Qed.

Lemma CrossEntropyFn_backward_is_gradient_witness :
  exists loss ctx dx,
    CrossEntropyFn_forward [[0; 1]; [2; 3]] [1%Z; (-1)%Z] = Ok (loss, ctx) /\
    CrossEntropyFn_backward ctx 2 = Ok (dx, None) /\
    derivable_pt_lim (fun z => 2 * ce_loss_of (Mset [[0; 1]; [2; 3]] 1 0 z) [1%Z; (-1)%Z])
      (Mget [[0; 1]; [2; 3]] 1 0) (Mget dx 1 0).
Proof.
  apply (CrossEntropyFn_backward_is_gradient 2 2); try lia; try reflexivity.
  - split; [reflexivity|]. repeat constructor.
  - repeat constructor; simpl; lia.
Defined.

(** * LayerNormFn: the parameter gradients are adjoint to the forward *)

(** The gradients [dgamma] and [dbeta] returned by LayerNorm's
    backward are the adjoint of the forward, which is linear in the
    parameters: for an input of shape (T, C) (T > 0), an upstream gradient
    [g] of shape (T, C) and any parameters [gamma'], [beta'] of length C,
    pairing [g] with the forward's output on [(x, gamma', beta')] equals
    [sum_c dgamma[c] * gamma'[c] + dbeta[c] * beta'[c]]. *)
Theorem LayerNormFn_backward_param_adjoint (T C : nat) (x : Mat) (gamma beta gamma' beta' : Vec)
  (g : Mat) (Hx : is_mat T C x) (Hg : is_mat T C g) (HT0 : (0 < T)%nat)
  (Hgam' : length gamma' = C) (Hbet' : length beta' = C) :
  let r := LayerNormFn_backward (snd (LayerNormFn_forward x gamma beta)) g in
  frob T C g (fst (LayerNormFn_forward x gamma' beta'))
  = sum_n (fun c => nth c (snd (fst r)) 0 * nth c gamma' 0 + nth c (snd r) 0 * nth c beta' 0) C.
Proof.
  cbv zeta. pose proof (proj1 Hx) as HT. pose proof (proj1 Hg) as HTg.
  pose proof (shape2_is_mat T C x Hx HT0) as Hsx.
  pose proof (shape2_is_mat T C g Hg HT0) as Hsg.
  assert (Hxc : ln_x (snd (LayerNormFn_forward x gamma beta)) = x) by reflexivity.
  unfold LayerNormFn_backward. rewrite Hxc, Hsx. cbv zeta. cbn [fst snd].
  destruct (sum0_spec C g (proj2 Hg)) as [_ Hn0].
  unfold frob. rewrite sum_n_swap. apply sum_n_ext. intros c Hc.
  rewrite (nth_einsum_tc_tc_t_c T C) by assumption. rewrite Hn0, HTg by exact Hc.
  rewrite <- !sum_n_scale_r, <- sum_n_plus. apply sum_n_ext. intros t Ht.
  assert (Hrow : length (nth t x []) = C) by exact (is_mat_row T C x t Hx Ht).
  unfold Mget. rewrite (ln_row_y x gamma' beta' t) by lia.
  rewrite (ln_row_mu x gamma beta t), (ln_row_sigma x gamma beta t) by lia.
  rewrite (nth_zipw _ _ _ c 0 0 0) by (rewrite ?length_zipw, ?length_map; lia).
  rewrite (nth_zipw _ _ _ c 0 0 0) by (rewrite ?length_map; lia).
  rewrite !(nth_map_gen _ _ _ 0) by lia. ring.
Qed.

Lemma LayerNormFn_backward_param_adjoint_witness :
  let r := LayerNormFn_backward (snd (LayerNormFn_forward [[1; 3]] [1; 1] [0; 0])) [[2; 5]] in
  frob 1 2 [[2; 5]] (fst (LayerNormFn_forward [[1; 3]] [4; -1] [2; 7]))
  = sum_n (fun c => nth c (snd (fst r)) 0 * nth c [4; -1] 0 + nth c (snd r) 0 * nth c [2; 7] 0) 2.
Proof.
  apply (LayerNormFn_backward_param_adjoint 1 2); try lia; try reflexivity;
    split; try reflexivity; repeat constructor.
Defined.
